(** * ps5.js: the grouping utility and the page controller

    A shallow embedding of [src/ps5.js].

    - JavaScript objects that the program allocates and mutates (the
      response array, its records, the bucket arrays [groupBy] pushes to,
      the object it returns) are cells of an explicit store, addressed by
      location; a variable holding an object holds its location, so two
      references to one array see the same pushes.
    - The [Map] of [groupBy] and the sorted array of its keys never leave
      the call; they are an insertion-ordered list of entries and a list.
    - An ordinary object keeps its properties in enumeration order: array
      indices first, ascending, then the other names in order of creation.
    - Field values and grouping keys are primitives, or one of the objects
      every record inherits from [Object.prototype]; numbers are integers
      and strings are sequences of code units below 256, compared unit by
      unit.
    - The page is a record of the DOM properties and global arrays the
      script reads and writes; a statement of the script is a transformer
      of the store, the page and the console.
    - A promise chain is a function of the outcome of the operation it
      waits for. *)

From Stdlib Require Import ZArith String Ascii DecimalString DecimalPos DecimalZ.
From stdpp Require Import base option list sorting strings gmap.

Local Open Scope string_scope.
Local Open Scope nat_scope.
Local Open Scope list_scope.

(** ** Values *)

(** The properties of [Object.prototype], which every record inherits:
    eleven functions and the accessor [__proto__]. *)
Inductive builtin : Type :=
  | B_constructor
  | B_hasOwnProperty
  | B_isPrototypeOf
  | B_propertyIsEnumerable
  | B_toLocaleString
  | B_toString
  | B_valueOf
  | B_defineGetter
  | B_defineSetter
  | B_lookupGetter
  | B_lookupSetter
  | B_proto.

#[global] Instance builtin_eq_dec : EqDecision builtin.
Proof. solve_decision. Defined.

(** The values a record field holds and a grouping key can be: the
    primitives, and what reading an inherited property gives.  Numbers are
    the integer-valued ones (syllable counts, scores); below 2^53 in
    magnitude they are the numbers of the language and their
    Number::toString is the decimal numeral. *)
Inductive prim : Type :=
  | PUndefined
  | PNull
  | PBool (b : bool)
  | PNum (n : Z)
  | PStr (s : string)
  | PBuiltin (b : builtin).

#[global] Instance prim_eq_dec : EqDecision prim.
Proof. solve_decision. Defined.

Definition builtin_name (b : builtin) : string :=
  match b with
  | B_constructor => "constructor"
  | B_hasOwnProperty => "hasOwnProperty"
  | B_isPrototypeOf => "isPrototypeOf"
  | B_propertyIsEnumerable => "propertyIsEnumerable"
  | B_toLocaleString => "toLocaleString"
  | B_toString => "toString"
  | B_valueOf => "valueOf"
  | B_defineGetter => "__defineGetter__"
  | B_defineSetter => "__defineSetter__"
  | B_lookupGetter => "__lookupGetter__"
  | B_lookupSetter => "__lookupSetter__"
  | B_proto => "__proto__"
  end.

Definition builtins : list builtin :=
  [ B_constructor; B_hasOwnProperty; B_isPrototypeOf; B_propertyIsEnumerable;
    B_toLocaleString; B_toString; B_valueOf; B_defineGetter; B_defineSetter;
    B_lookupGetter; B_lookupSetter; B_proto ].

(** The string of an inherited value.  The accessor [__proto__] reads as
    [Object.prototype] itself; [constructor] is the function [Object]; the
    text of a native function is the engine's, here the one-line form. *)
Definition builtin_source (b : builtin) : string :=
  match b with
  | B_proto => "[object Object]"
  | B_constructor => "function Object() { [native code] }"
  | _ => "function " +:+ builtin_name b +:+ "() { [native code] }"
  end.

(** ToString of the language, on these values. *)
Definition ToString (v : prim) : string :=
  match v with
  | PUndefined => "undefined"
  | PNull => "null"
  | PBool true => "true"
  | PBool false => "false"
  | PNum n => NilZero.string_of_int (Z.to_int n)
  | PStr s => s
  | PBuiltin b => builtin_source b
  end.

(** The values whose string is the same in every engine and is the one
    [ToString] gives here: the primitives, a number being a safe integer
    (below 2^53 in magnitude).  The text of a native function is left to
    the engine, and larger numbers print with an exponent. *)
Definition plain (v : prim) : Prop :=
  match v with
  | PNum n => (- 2 ^ 53 < n < 2 ^ 53)%Z
  | PBuiltin _ => False
  | _ => True
  end.

#[global] Instance plain_dec v : Decision (plain v).
Proof. destruct v; simpl; apply _. Defined.

(** A record: its own properties; its prototype is [Object.prototype]. *)
Abbreviation record := (gmap string prim).

(** [Object.prototype[propName]] *)
Definition Object_prototype (propName : string) : prim :=
  from_option PBuiltin PUndefined
    (List.find (fun b => String.eqb (builtin_name b) propName) builtins).

(** [obj[propName]]: the record's own property, else the inherited one,
    else [undefined]. *)
Definition get_field (obj : record) (propName : string) : prim :=
  match obj !! propName with
  | Some v => v
  | None => Object_prototype propName
  end.

(** ** The store *)

Abbreviation loc := nat.

(** The own properties of the object [groupBy] builds, in the order
    [Object.keys] enumerates them, which is also the order in which
    [for ... in] visits them. *)
Abbreviation object := (list (string * loc)).

(** A cell of the store.  The object [groupBy] builds has, beside its own
    properties, a prototype: [None] for [Object.prototype], or the array an
    assignment to [__proto__] has put there. *)
Inductive cell : Type :=
  | CRecord (fields : record)
  | CArray (items : list loc)
  | CObject (proto : option loc) (props : object).

Abbreviation heap := (list cell).

Definition alloc (h : heap) (c : cell) : loc * heap := (length h, h ++ [c]).

Definition read_record (h : heap) (l : loc) : option record :=
  match h !! l with Some (CRecord r) => Some r | _ => None end.

Definition read_array (h : heap) (l : loc) : option (list loc) :=
  match h !! l with Some (CArray xs) => Some xs | _ => None end.

Definition read_object (h : heap) (l : loc) : option object :=
  match h !! l with Some (CObject _ o) => Some o | _ => None end.

Definition read_proto (h : heap) (l : loc) : option (option loc) :=
  match h !! l with Some (CObject proto _) => Some proto | _ => None end.

(** [arr.push(x)] on the array stored at [l]. *)
Definition Array_push (h : heap) (l : loc) (x : loc) : option heap :=
  xs ← read_array h l; Some (<[l := CArray (xs ++ [x])]> h).

(** ** Property keys of ordinary objects *)

(** A property key is an array index when it is the canonical numeral of an
    integer in [0, 2^32 - 2]. *)
Definition array_index (s : string) : option N :=
  match NilZero.uint_of_string s with
  | Some u =>
      let n := N.of_uint u in
      if (n <=? 4294967294)%N && String.eqb (NilZero.string_of_uint (N.to_uint n)) s
      then Some n else None
  | None => None
  end.

Definition own_keys (o : object) : list string := o.*1.

Definition get_prop (o : object) (s : string) : option loc :=
  snd <$> List.find (fun p => String.eqb (fst p) s) o.

Definition has_prop (o : object) (s : string) : bool :=
  match get_prop o s with Some _ => true | None => false end.

(** Overwrite the value of an existing property, keeping its position. *)
Fixpoint update_prop (o : object) (s : string) (v : loc) : object :=
  match o with
  | [] => []
  | (s', v') :: o' =>
      if String.eqb s' s then (s', v) :: o' else (s', v') :: update_prop o' s v
  end.

(** Create the array-index property [s] (numeric value [n]): array indices
    come first, in ascending numeric order. *)
Fixpoint insert_index (o : object) (n : N) (s : string) (v : loc) : object :=
  match o with
  | [] => [(s, v)]
  | (s', v') :: o' =>
      match array_index s' with
      | Some n' =>
          if (n' <? n)%N then (s', v') :: insert_index o' n s v
          else (s, v) :: (s', v') :: o'
      | None => (s, v) :: (s', v') :: o'
      end
  end.

(** [o[s] = v] for a name [s] other than [__proto__]: an existing property
    keeps its place; a new array index is placed among the array indices;
    any other new key goes last. *)
Definition set_prop (o : object) (s : string) (v : loc) : object :=
  if has_prop o s then update_prop o s v
  else match array_index s with
       | Some n => insert_index o n s v
       | None => o ++ [(s, v)]
       end.

(** ** Map *)

(** The entries of a [Map], in insertion order; keys are compared by
    SameValueZero, which on these primitives is equality. *)
Abbreviation Map := (list (prim * loc)).

Definition Map_get (m : Map) (k : prim) : option loc :=
  snd <$> List.find (fun e => bool_decide (fst e = k)) m.

Definition Map_has (m : Map) (k : prim) : bool :=
  match Map_get m k with Some _ => true | None => false end.

Fixpoint Map_update (m : Map) (k : prim) (v : loc) : Map :=
  match m with
  | [] => []
  | (k', v') :: m' =>
      if bool_decide (k' = k) then (k', v) :: m' else (k', v') :: Map_update m' k v
  end.

Definition Map_set (m : Map) (k : prim) (v : loc) : Map :=
  if Map_has m k then Map_update m k v else m ++ [(k, v)].

Definition Map_keys (m : Map) : list prim := m.*1.

(** ** Array.prototype.sort without a comparator *)

(** The default ordering: [undefined] after everything else, all other
    values by their strings, code unit by code unit. *)
Definition SortCompare (x y : prim) : comparison :=
  match x, y with
  | PUndefined, PUndefined => Eq
  | PUndefined, _ => Gt
  | _, PUndefined => Lt
  | _, _ => String.compare (ToString x) (ToString y)
  end.

Definition sort_le (x y : prim) : bool :=
  match SortCompare x y with Gt => false | _ => true end.

Fixpoint sort_insert (x : prim) (l : list prim) : list prim :=
  match l with
  | [] => [x]
  | y :: l' => if sort_le x y then x :: y :: l' else y :: sort_insert x l'
  end.

(** The sort is stable; insertion from the right keeps equal keys in their
    original order. *)
Fixpoint Array_sort (l : list prim) : list prim :=
  match l with
  | [] => []
  | x :: l' => sort_insert x (Array_sort l')
  end.

(** ** groupBy *)

(** The second argument: a property name or a function of the record. *)
Inductive selector : Type :=
  | Name (propName : string)
  | Function (f : record → prim).

(** Lines 17-20: a property name becomes the function reading it. *)
Definition as_function (property : selector) : record → prim :=
  match property with
  | Name propName => fun obj => get_field obj propName
  | Function f => f
  end.

(** Lines 24-29, one iteration of the first loop. *)
Definition group_one (property : record → prim) (st : heap * Map) (object : loc)
  : option (heap * Map) :=
  let '(h, groupedObjects) := st in
  obj ← read_record h object;
  let groupName := property obj in
  let '(h1, groupedObjects1) :=
    if Map_has groupedObjects groupName then (h, groupedObjects)
    else let '(l, h') := alloc h (CArray []) in (h', Map_set groupedObjects groupName l) in
  bucket ← Map_get groupedObjects1 groupName;
  h2 ← Array_push h1 bucket object;
  Some (h2, groupedObjects1).

Fixpoint group_all (property : record → prim) (st : heap * Map) (objects : list loc)
  : option (heap * Map) :=
  match objects with
  | [] => Some st
  | object :: rest => st' ← group_one property st object; group_all property st' rest
  end.

(** [result[s] = v] where [v] is an object.  The name [__proto__] is the
    inherited accessor: the assignment makes [v] the prototype of [result]
    and creates no property.  Every other name becomes an own property,
    before and after such a change of prototype. *)
Definition assign (c : cell) (s : string) (v : loc) : cell :=
  match c with
  | CObject proto o =>
      if String.eqb s "__proto__" then CObject (Some v) o
      else CObject proto (set_prop o s v)
  | _ => c
  end.

(** Line 35, one iteration of the second loop: [result[key] = groupedObjects.get(key)]. *)
Definition emit_one (groupedObjects : Map) (result : loc) (h : heap) (key : prim)
  : option heap :=
  v ← Map_get groupedObjects key;
  _ ← read_object h result;
  c ← h !! result;
  Some (<[result := assign c (ToString key) v]> h).

Fixpoint emit_all (groupedObjects : Map) (result : loc) (h : heap) (keys : list prim)
  : option heap :=
  match keys with
  | [] => Some h
  | key :: rest => h' ← emit_one groupedObjects result h key; emit_all groupedObjects result h' rest
  end.

(** [groupBy(objects, property)]: [objects] is the location of the input
    array; the answer is the location of the returned object and the store
    after the call. *)
Definition groupBy (h : heap) (objects : loc) (property : selector) : option (loc * heap) :=
  let property := as_function property in
  items ← read_array h objects;
  '(h1, groupedObjects) ← group_all property (h, []) items;
  let '(result, h2) := alloc h1 (CObject None []) in
  h3 ← emit_all groupedObjects result h2 (Array_sort (Map_keys groupedObjects));
  Some (result, h3).

(** What a caller sees of the returned object: its own keys in enumeration
    order ([Object.keys], [Object.entries]), each with the contents of its
    array. *)
Definition groups_of (h : heap) (result : loc) : option (list (string * list loc)) :=
  o ← read_object h result;
  mapM (fun p : string * loc => xs ← read_array h p.2; Some (p.1, xs)) o.

(** ** The page *)

(** The nodes the script creates.  An element whose content the script
    sets through [innerHTML] carries the markup that was assigned: the
    browser parses it, so what the element then contains and what reading
    [innerHTML] gives back are the assigned text only when that text has no
    [&], [<] or [>]. *)
#[local] Unset Elimination Schemes.
Inductive node : Type :=
  | TextNode (data : string)
  | H3 (markup : string)
  | Span (textContent : string)
  | Button (className markup backgroundColor : string)
  | Li (children : list node).
#[local] Set Elimination Schemes.

(** The element behind [#word_output] is declared by the page, not by the
    script.  It is a parameter: an [output] element, whose [value] is its
    text content, or an element without a [value] of its own ([div], [ul],
    [section]), on which [value] is an ordinary property of the object. *)
Inductive element : Type :=
  | OutputElement
  | PlainElement.

(** The DOM properties and the global variables the script reads and
    writes.  [outputDescription_markup] and [wordInput_markup] are the
    strings last assigned to [innerHTML]; [wordOutput_own_value] is the
    ordinary property [value] of a plain output area, [None] until it is
    assigned; [wordInput_value] is the [value] of the input element behind
    [#word_input].  [groupedResult] is the global variable the rhyme
    callback makes by assigning a name that is not declared, which a
    classic script may do. *)
Record page : Type := Page {
  outputDescription_markup : string;
  wordOutput_element : element;
  wordOutput_own_value : option string;
  wordOutput_children : list node;
  wordInput_value : string;
  wordInput_markup : string;
  savedWords_children : list node;
  savedWordsArray : list string;
  wordList : list string;
  groupedResult : option loc
}.

Definition error := string.

Record world : Type := World {
  store : heap;
  dom : page;
  console : list error
}.

(** Statements of the script: a state transformer.  [None] is a statement
    that does not complete: it throws (a property read on [undefined] or
    [null]), or the store is not of the shape the statement needs. *)
Definition M (A : Type) : Type := world → option (A * world).

#[global] Instance M_ret : MRet M := λ A a w, Some (a, w).
#[global] Instance M_bind : MBind M := λ A B k c w,
  match c w with Some (a, w') => k a w' | None => None end.

Definition modify_dom (f : page → page) : M unit :=
  λ w, Some (tt, World (store w) (f (dom w)) (console w)).

Definition get_dom : M page := λ w, Some (dom w, w).

Definition get_store : M heap := λ w, Some (store w, w).

Definition put_store (h : heap) : M unit :=
  λ w, Some (tt, World h (dom w) (console w)).

Definition lift_option {A} (x : option A) : M A :=
  λ w, match x with Some a => Some (a, w) | None => None end.

Definition console_error (err : error) : M unit :=
  λ w, Some (tt, World (store w) (dom w) (console w ++ [err])).

Fixpoint for_each {A} (xs : list A) (body : A → M unit) : M unit :=
  match xs with
  | [] => mret tt
  | x :: rest => _ ← body x; for_each rest body
  end.

Definition set_outputDescription_innerHTML (s : string) (p : page) : page :=
  Page s (wordOutput_element p) (wordOutput_own_value p) (wordOutput_children p)
       (wordInput_value p) (wordInput_markup p) (savedWords_children p)
       (savedWordsArray p) (wordList p) (groupedResult p).

Definition set_wordOutput_own_value (s : string) (p : page) : page :=
  Page (outputDescription_markup p) (wordOutput_element p) (Some s)
       (wordOutput_children p) (wordInput_value p) (wordInput_markup p)
       (savedWords_children p) (savedWordsArray p) (wordList p) (groupedResult p).

Definition set_wordOutput_children (ns : list node) (p : page) : page :=
  Page (outputDescription_markup p) (wordOutput_element p) (wordOutput_own_value p)
       ns (wordInput_value p) (wordInput_markup p) (savedWords_children p)
       (savedWordsArray p) (wordList p) (groupedResult p).

Definition set_wordInput_innerHTML (s : string) (p : page) : page :=
  Page (outputDescription_markup p) (wordOutput_element p) (wordOutput_own_value p)
       (wordOutput_children p) (wordInput_value p) s (savedWords_children p)
       (savedWordsArray p) (wordList p) (groupedResult p).

Definition set_savedWords_children (ns : list node) (p : page) : page :=
  Page (outputDescription_markup p) (wordOutput_element p) (wordOutput_own_value p)
       (wordOutput_children p) (wordInput_value p) (wordInput_markup p) ns
       (savedWordsArray p) (wordList p) (groupedResult p).

Definition set_wordList (ws : list string) (p : page) : page :=
  Page (outputDescription_markup p) (wordOutput_element p) (wordOutput_own_value p)
       (wordOutput_children p) (wordInput_value p) (wordInput_markup p)
       (savedWords_children p) (savedWordsArray p) ws (groupedResult p).

Definition set_groupedResult (l : loc) (p : page) : page :=
  Page (outputDescription_markup p) (wordOutput_element p) (wordOutput_own_value p)
       (wordOutput_children p) (wordInput_value p) (wordInput_markup p)
       (savedWords_children p) (savedWordsArray p) (wordList p) (Some l).

(** The text put in an element by [textContent = s] or, on an [output]
    element, by [value = s]: one text node, none for the empty string. *)
Definition text_of (s : string) : list node :=
  match s with
  | EmptyString => []
  | _ => [TextNode s]
  end.

(** [wordOutput.value = s] *)
Definition set_wordOutput_value (s : string) (p : page) : page :=
  match wordOutput_element p with
  | OutputElement => set_wordOutput_children (text_of s) p
  | PlainElement => set_wordOutput_own_value s p
  end.

(** [wordOutput.append(n)] *)
Definition wordOutput_append (n : node) : M unit :=
  modify_dom (λ p, set_wordOutput_children (wordOutput_children p ++ [n]) p).

(** Assigning a value to [textContent]: [null] and [undefined] give the
    empty string. *)
Definition textContent_of (v : prim) : string :=
  match v with
  | PUndefined | PNull => ""
  | _ => ToString v
  end.

(** ** Promises *)

Inductive settled (A : Type) : Type :=
  | Fulfilled (value : A)
  | Rejected (reason : error).
Arguments Fulfilled {A} value.
Arguments Rejected {A} reason.

(** [p.then(onFulfilled, onRejected)] once [p] has settled. *)
Definition promise_then {A B} (p : settled A)
    (onFulfilled : A → M (settled B)) (onRejected : error → M (settled B))
  : M (settled B) :=
  match p with
  | Fulfilled a => onFulfilled a
  | Rejected e => onRejected e
  end.

(** [p.then(onFulfilled)]: a rejection passes through. *)
Definition promise_then1 {A B} (p : settled A) (onFulfilled : A → M (settled B))
  : M (settled B) :=
  promise_then p onFulfilled (λ e, mret (Rejected e)).

(** What the network answers: the body of a response either parses to a
    sequence of records or fails to parse. *)
Record response : Type := Response { body : settled (list record) }.

(** Allocate records, then an array holding them in order. *)
Definition alloc_records (h : heap) (rs : list record) : loc * heap :=
  let base := length h in
  alloc (h ++ (CRecord <$> rs)) (CArray (seq base (length rs))).

(** [response.json()] *)
Definition json (r : response) : M (settled loc) :=
  match body r with
  | Fulfilled rs =>
      h ← get_store;
      let '(data, h') := alloc_records h rs in
      _ ← put_store h';
      mret (Fulfilled data)
  | Rejected e => mret (Rejected e)
  end.

(** A request in flight: what runs when [fetch(url)] settles. *)
Record request : Type := Request {
  request_url : string;
  on_settled : settled response → M unit
}.

(** Lines 65-74.  The two [then]s of the chain, as a function of the
    outcome of [fetch(url)]. *)
Definition datamuseRequest (url : string) (callback : loc → M unit) : request :=
  Request url (λ fetched,
    parsed ← promise_then1 fetched (λ response, json response);
    _ ← promise_then parsed
          (λ data, _ ← callback data; mret (Fulfilled tt))
          (λ err, _ ← console_error err; mret (Fulfilled tt));
    mret tt).

(** ** Request URLs *)

Definition hex_digit (n : N) : ascii :=
  ascii_of_N (if (n <? 10)%N then 48 + n else 55 + n).

Definition urlencoded_keep (c : ascii) : bool :=
  let n := N_of_ascii c in
  ((48 <=? n) && (n <=? 57) || (65 <=? n) && (n <=? 90) || (97 <=? n) && (n <=? 122)
   || (n =? 42) || (n =? 45) || (n =? 46) || (n =? 95))%N.

Definition percent_byte (n : N) (rest : string) : string :=
  String "%" (String (hex_digit (n / 16)) (String (hex_digit (n mod 16)) rest)).

(** The application/x-www-form-urlencoded serialisation of one value: the
    bytes of its UTF-8 encoding, percent-encoded.  A code unit from 128 to
    255 is a character of two bytes. *)
Fixpoint urlencode (s : string) : string :=
  match s with
  | EmptyString => EmptyString
  | String c rest =>
      let n := N_of_ascii c in
      if urlencoded_keep c then String c (urlencode rest)
      else if (n =? 32)%N then String "+" (urlencode rest)
      else if (n <? 128)%N then percent_byte n (urlencode rest)
      else percent_byte (192 + n / 64) (percent_byte (128 + n mod 64) (urlencode rest))
  end.

(** Lines 85-87; the argument is not used, the word is read from the page. *)
Definition getDatamuseRhymeUrl (rel_rhy : string) : M string :=
  p ← get_dom;
  mret ("https://api.datamuse.com/words?" +:+ "rel_rhy=" +:+ urlencode (wordInput_value p)).

(** Lines 98-100. *)
Definition getDatamuseSimilarToUrl (ml : string) : M string :=
  p ← get_dom;
  mret ("https://api.datamuse.com/words?" +:+ "ml=" +:+ urlencode (wordInput_value p)).

(** ** Saved words *)

(** Lines 110-115.  The string [wordList.join()] makes is dropped;
    [savedWords.append(wordList)] appends the array as text, its entries
    joined by commas. *)
Definition addToSavedWords (word : string) : M unit :=
  _ ← modify_dom (set_savedWords_children []);
  _ ← modify_dom (λ p, set_wordList (wordList p ++ [word]) p);
  modify_dom (λ p, set_savedWords_children
                     (savedWords_children p ++ [TextNode (String.concat "," (wordList p))]) p).

(** ** Handlers *)

Definition save_button : node := Button "save" "Save" "green".

(** Lines 134-145 and 163-174: one list item with its save button. *)
Definition append_item (item : loc) : M unit :=
  h ← get_store;
  obj ← lift_option (read_record h item);
  wordOutput_append (Li [Span (textContent_of (get_field obj "word")); save_button]).

(** The name of the array index [i]. *)
Definition index_name (i : nat) : string := NilZero.string_of_uint (Nat.to_uint i).

(** The names [for (group in groupedResult)] visits: the own names, then
    the enumerable names of the prototype that no own property hides.
    [Object.prototype] has none; an array has its indices. *)
Definition for_in (h : heap) (proto : option loc) (o : object) : option (list string) :=
  match proto with
  | None => Some (own_keys o)
  | Some parent =>
      items ← read_array h parent;
      Some (own_keys o
            ++ filter (λ s, has_prop o s = false) (index_name <$> seq 0 (length items)))
  end.

(** [groupedResult[group]] for a name [for_in] gives: the own property,
    else the element of the prototype at that index. *)
Definition get_member (h : heap) (proto : option loc) (o : object) (group : string)
  : option loc :=
  match get_prop o group with
  | Some l => Some l
  | None =>
      parent ← proto;
      items ← read_array h parent;
      n ← array_index group;
      items !! N.to_nat n
  end.

Definition nullish (v : prim) : bool :=
  match v with
  | PUndefined | PNull => true
  | _ => false
  end.

(** [v.name] for a field value [v] and a name that none of the prototypes
    of numbers, strings, booleans, functions and objects defines
    ([numSyllables], [word]): a [TypeError] on [undefined] and [null],
    [undefined] otherwise. *)
Definition member_of_value (v : prim) : option prim :=
  if nullish v then None else Some PUndefined.

(** Lines 128-146: the header of one group, then its items.  [wordGroup] is
    a bucket array when [group] is an own name.  When [group] is an index
    reached through the prototype, [wordGroup] is a record: [wordGroup[0]]
    is its field ["0"], and the inner loop visits its fields, whose values
    have no [word]; that loop does the same for every field, so the order
    of the fields does not show. *)
Definition append_group (proto : option loc) (groups : object) (group : string)
  : M unit :=
  h ← get_store;
  wordGroup ← lift_option (get_member h proto groups group);
  c ← lift_option (h !! wordGroup);
  match c with
  | CArray items =>
      first ← lift_option (items !! 0);
      obj ← lift_option (read_record h first);
      _ ← wordOutput_append (H3 ("Syllables: " +:+ ToString (get_field obj "numSyllables")));
      for_each items append_item
  | CRecord fields =>
      numSyllables ← lift_option (member_of_value (get_field fields "0"));
      _ ← wordOutput_append (H3 ("Syllables: " +:+ ToString numSyllables));
      for_each (map_to_list fields) (λ field,
        word ← lift_option (member_of_value field.2);
        wordOutput_append (Li [Span (textContent_of word); save_button]))
  | CObject _ _ => lift_option None
  end.

(** Lines 121-150, the callback of [rhymeHandler]. *)
Definition rhymeCallback (result : loc) : M unit :=
  h ← get_store;
  '(grouped, h') ← lift_option (groupBy h result (Name "numSyllables"));
  _ ← put_store h';
  _ ← modify_dom (set_groupedResult grouped);
  groups ← lift_option (read_object h' grouped);
  proto ← lift_option (read_proto h' grouped);
  if length (own_keys groups) =? 0
  then modify_dom (set_wordOutput_value "(no results)")
  else
    names ← lift_option (for_in h' proto groups);
    for_each names (append_group proto groups).

(** Lines 158-177, the callback of [synonymHandler]. *)
Definition synonymCallback (result : loc) : M unit :=
  h ← get_store;
  items ← lift_option (read_array h result);
  if length items =? 0
  then modify_dom (set_wordOutput_value "(no results)")
  else for_each items append_item.

(** Lines 119-154.  The request is issued, the input and the output area
    are cleared; the callback runs later, when the request settles. *)
Definition rhymeHandler : M request :=
  p ← get_dom;
  _ ← modify_dom (set_outputDescription_innerHTML
                    ("Words that rhyme with " +:+ wordInput_value p));
  url ← getDatamuseRhymeUrl (wordInput_value p);
  let req := datamuseRequest url rhymeCallback in
  _ ← modify_dom (set_wordInput_innerHTML "");
  _ ← modify_dom (set_wordOutput_children []);
  mret req.

(** Lines 156-181. *)
Definition synonymHandler : M request :=
  p ← get_dom;
  _ ← modify_dom (set_outputDescription_innerHTML
                    ("Words with a similar meaning to " +:+ wordInput_value p));
  url ← getDatamuseSimilarToUrl (wordInput_value p);
  let req := datamuseRequest url synonymCallback in
  _ ← modify_dom (set_wordInput_innerHTML "");
  _ ← modify_dom (set_wordOutput_children []);
  mret req.

(** A handler followed by the settling of its request. *)
Definition handle_then_settle (handler : M request) (fetched : settled response)
  : M unit :=
  req ← handler; on_settled req fetched.

(** Lines 188-192: a key pressed in the word input. *)
Definition wordInput_keydown (key : string) : M (option request) :=
  if String.eqb key "Enter"
  then req ← rhymeHandler; mret (Some req)
  else mret None.

(** ** Running groupBy on literal records *)

Definition run_groupBy (rs : list record) (property : selector)
  : option (list (string * list loc)) :=
  let '(objects, h) := alloc_records [] rs in
  '(result, h') ← groupBy h objects property;
  groups_of h' result.

(** The records of the example in the comment above [groupBy]. *)
Definition team_records : list record :=
  [ {[ "name" := PStr "Steve"; "team" := PStr "blue" ]};
    {[ "name" := PStr "Jack"; "team" := PStr "red" ]};
    {[ "name" := PStr "Carol"; "team" := PStr "blue" ]} ].

Definition team_objects : loc := (alloc_records [] team_records).1.
Definition team_heap : heap := (alloc_records [] team_records).2.

(** * Properties of the building blocks *)

Section map_facts.
Implicit Types (m : Map) (k : prim) (l : loc).

Lemma Map_get_cons k' l' m k :
  Map_get ((k', l') :: m) k = if decide (k' = k) then Some l' else Map_get m k.
Proof.
  unfold Map_get; simpl. destruct (decide (k' = k)).
  - by rewrite bool_decide_eq_true_2.
  - by rewrite bool_decide_eq_false_2.
Qed.

Lemma Map_get_Some m k l : Map_get m k = Some l → (k, l) ∈ m.
Proof.
  induction m as [|[k' l'] m IH]; [done|].
  rewrite Map_get_cons. destruct (decide (k' = k)) as [->|].
  - intros [= ->]. left.
  - intros ?. right. auto.
Qed.

Lemma Map_get_None m k : Map_get m k = None → k ∉ m.*1.
Proof.
  induction m as [|[k' l'] m IH]; [intros _; apply not_elem_of_nil|].
  rewrite Map_get_cons. destruct (decide (k' = k)); [done|].
  intros ?. rewrite fmap_cons, not_elem_of_cons. auto.
Qed.

Lemma Map_get_elem m k l : NoDup m.*1 → (k, l) ∈ m → Map_get m k = Some l.
Proof.
  induction m as [|[k' l'] m IH]; [by intros _ ?%elem_of_nil|].
  rewrite fmap_cons, NoDup_cons, Map_get_cons. intros [Hk ?] Hin.
  apply elem_of_cons in Hin as [[= <- <-]|Hin].
  - by rewrite decide_True.
  - rewrite decide_False; [auto|]. intros ->. apply Hk.
    apply list_elem_of_fmap. by exists (k, l).
Qed.

Lemma Map_get_app_new m k l : k ∉ m.*1 → Map_get (m ++ [(k, l)]) k = Some l.
Proof.
  induction m as [|[k' l'] m IH]; simpl.
  - intros _. rewrite Map_get_cons. by rewrite decide_True.
  - rewrite not_elem_of_cons. intros [? ?]. rewrite Map_get_cons.
    rewrite decide_False by done. auto.
Qed.

Lemma Map_has_true m k : Map_has m k = true → ∃ l, Map_get m k = Some l.
Proof. unfold Map_has. destruct (Map_get m k); [eauto|done]. Qed.

Lemma Map_has_false m k : Map_has m k = false → Map_get m k = None.
Proof. unfold Map_has. by destruct (Map_get m k). Qed.

Lemma Map_set_new m k l : Map_has m k = false → Map_set m k l = m ++ [(k, l)].
Proof. unfold Map_set. by intros ->. Qed.
End map_facts.

(** ** The first loop of groupBy *)

Lemma read_array_lookup h l xs : read_array h l = Some xs ↔ h !! l = Some (CArray xs).
Proof.
  unfold read_array. destruct (h !! l) as [[]|]; split; intros; simplify_eq; done.
Qed.

Lemma read_record_lookup h l r : read_record h l = Some r ↔ h !! l = Some (CRecord r).
Proof.
  unfold read_record. destruct (h !! l) as [[]|]; split; intros; simplify_eq; done.
Qed.

Lemma read_object_lookup h l o :
  read_object h l = Some o ↔ ∃ proto, h !! l = Some (CObject proto o).
Proof.
  unfold read_object. destruct (h !! l) as [[]|]; split;
    try intros [? ?]; intros; simplify_eq; eauto.
Qed.

Lemma read_proto_lookup h l proto o :
  h !! l = Some (CObject proto o) → read_proto h l = Some proto.
Proof. unfold read_proto. by intros ->. Qed.

Section first_loop.
Context (property : record → prim) (h0 : heap).

(** The key of the record stored at [o] when the call starts. *)
Definition key_of (o : loc) : prim :=
  from_option property PUndefined (read_record h0 o).

Definition bucket_of (k : prim) (done : list loc) : list loc :=
  filter (λ o, key_of o = k) done.

(** What holds between iterations, after the records [done]. *)
Record grouped (done : list loc) (h : heap) (m : Map) : Prop := Grouped {
  grouped_frame : ∀ l c, h0 !! l = Some c → h !! l = Some c;
  grouped_keys : NoDup m.*1;
  grouped_locs : NoDup m.*2;
  grouped_dom : ∀ k, k ∈ m.*1 ↔ k ∈ key_of <$> done;
  grouped_bucket : ∀ k l, (k, l) ∈ m →
    length h0 ≤ l ∧ h !! l = Some (CArray (bucket_of k done))
}.

Lemma grouped_init : grouped [] h0 [].
Proof.
  split; simpl; try done; try apply NoDup_nil_2.
  intros k l Hin. by apply elem_of_nil in Hin.
Qed.

Lemma bucket_of_snoc_eq k done o :
  key_of o = k → bucket_of k (done ++ [o]) = bucket_of k done ++ [o].
Proof.
  intros Hk. unfold bucket_of. rewrite filter_app, filter_cons_True by done.
  by rewrite filter_nil.
Qed.

Lemma bucket_of_snoc_ne k done o :
  key_of o ≠ k → bucket_of k (done ++ [o]) = bucket_of k done.
Proof.
  intros Hk. unfold bucket_of. rewrite filter_app, filter_cons_False by done.
  by rewrite filter_nil, app_nil_r.
Qed.

Lemma bucket_of_fresh k done : k ∉ key_of <$> done → bucket_of k done = [].
Proof.
  intros Hk. unfold bucket_of. induction done as [|o done IH]; [done|].
  rewrite fmap_cons, not_elem_of_cons in Hk. destruct Hk as [? ?].
  rewrite filter_cons_False by done. auto.
Qed.

Lemma entry_unique (m : Map) k1 k2 l :
  NoDup m.*2 → (k1, l) ∈ m → (k2, l) ∈ m → k1 = k2.
Proof.
  induction m as [|[k' l'] m IH]; [by intros _ ?%elem_of_nil|].
  rewrite fmap_cons, NoDup_cons. intros [Hl ?] H1 H2.
  apply elem_of_cons in H1 as [?|H1];
    apply elem_of_cons in H2 as [?|H2]; simplify_eq; auto.
  - exfalso. apply Hl. apply list_elem_of_fmap. by exists (k2, l').
  - exfalso. apply Hl. apply list_elem_of_fmap. by exists (k1, l').
Qed.

(** One iteration succeeds on a record of the input and re-establishes
    the invariant. *)
Lemma group_one_grouped done h m o r :
  grouped done h m →
  read_record h0 o = Some r →
  ∃ h' m', group_one property (h, m) o = Some (h', m')
           ∧ grouped (done ++ [o]) h' m'.
Proof.
  intros [Hfr Hk Hl Hdom Hb] Hr.
  assert (read_record h o = Some r) as Hr'.
  { apply read_record_lookup. apply Hfr. by apply read_record_lookup. }
  assert (key_of o = property r) as Hkey by (unfold key_of; by rewrite Hr).
  unfold group_one. rewrite Hr'. simpl.
  destruct (Map_has m (property r)) eqn:Hhas.
  - (* the group exists *)
    apply Map_has_true in Hhas as [b Hget]. rewrite Hget. simpl.
    pose proof (Map_get_Some _ _ _ Hget) as Hin.
    destruct (Hb _ _ Hin) as [Hge Hcell].
    unfold Array_push. rewrite (proj2 (read_array_lookup _ _ _) Hcell). simpl.
    eexists _, _. split; [reflexivity|].
    split; try done.
    + intros l c Hl0. rewrite list_lookup_insert_ne; [auto|].
      apply lookup_lt_Some in Hl0. lia.
    + intros k. rewrite Hdom, fmap_app, elem_of_app. simpl.
      rewrite list_elem_of_singleton. split; [auto|].
      intros [?| ->]; [done|]. rewrite Hkey. apply Hdom.
      apply list_elem_of_fmap. by exists (property r, b).
    + intros k l Hkl. destruct (Hb _ _ Hkl) as [? Hc]. split; [done|].
      destruct (decide (l = b)) as [->|Hne].
      * assert (k = property r) as -> by eauto using entry_unique.
        rewrite list_lookup_insert_eq by (by eapply lookup_lt_Some).
        by rewrite bucket_of_snoc_eq.
      * rewrite list_lookup_insert_ne by done.
        rewrite bucket_of_snoc_ne; [done|].
        rewrite Hkey. intros <-. apply Hne.
        pose proof (Map_get_elem _ _ _ Hk Hkl). congruence.
  - (* a new group *)
    apply Map_has_false in Hhas as Hnone.
    rewrite Map_set_new by (unfold Map_has; by rewrite Hnone).
    apply Map_get_None in Hnone.
    rewrite Map_get_app_new by done. simpl.
    unfold Array_push, read_array.
    rewrite lookup_app_r, Nat.sub_diag by done. simpl.
    eexists _, _. split; [reflexivity|].
    assert (length h0 ≤ length h) as Hlen.
    { destruct (decide (length h0 ≤ length h)); [done|].
      destruct (lookup_lt_is_Some_2 h0 (length h)) as [c Hc]; [lia|].
      apply Hfr, lookup_lt_Some in Hc. lia. }
    split.
    + intros l c Hl0. pose proof (lookup_lt_Some _ _ _ Hl0).
      rewrite list_lookup_insert_ne by lia.
      rewrite lookup_app_l by lia. auto.
    + rewrite fmap_app. apply NoDup_app. split; [done|]. split.
      * intros k ? ->%list_elem_of_singleton. done.
      * apply NoDup_singleton.
    + rewrite fmap_app. apply NoDup_app. split; [done|]. split.
      * intros l Hin Hl'%list_elem_of_singleton. simpl in Hl'. subst l.
        apply list_elem_of_fmap in Hin as [[k l] [Hkl Hin]].
        simpl in Hkl. subst l.
        destruct (Hb _ _ Hin) as [_ Hc]. apply lookup_lt_Some in Hc. lia.
      * apply NoDup_singleton.
    + intros k. rewrite !fmap_app, !elem_of_app, Hdom. simpl.
      rewrite !list_elem_of_singleton, Hkey. done.
    + intros k l Hin. apply elem_of_app in Hin as [Hin|Hin].
      * destruct (Hb _ _ Hin) as [? Hc]. split; [done|].
        pose proof (lookup_lt_Some _ _ _ Hc).
        rewrite list_lookup_insert_ne by lia.
        rewrite lookup_app_l by lia.
        rewrite bucket_of_snoc_ne; [done|].
        rewrite Hkey. intros <-. apply Hnone.
        apply list_elem_of_fmap. by exists (property r, l).
      * apply list_elem_of_singleton in Hin as [= -> ->].
        split; [done|].
        rewrite list_lookup_insert_eq by (rewrite length_app; simpl; lia).
        rewrite bucket_of_snoc_eq by done.
        rewrite bucket_of_fresh; [done|].
        by rewrite <- Hdom.
Qed.

Lemma group_all_grouped items done h m :
  grouped done h m →
  Forall (λ o, is_Some (read_record h0 o)) items →
  ∃ h' m', group_all property (h, m) items = Some (h', m')
           ∧ grouped (done ++ items) h' m'.
Proof.
  revert done h m. induction items as [|o items IH]; intros done h m Hg Hall.
  - exists h, m. by rewrite app_nil_r.
  - apply Forall_cons in Hall as [[r Hr] Hall].
    destruct (group_one_grouped _ _ _ _ _ Hg Hr) as (h1 & m1 & Hstep & Hg1).
    destruct (IH _ _ _ Hg1 Hall) as (h2 & m2 & Hrest & Hg2).
    exists h2, m2. cbn [group_all]. rewrite Hstep. simpl.
    by rewrite <- app_assoc in Hg2.
Qed.
End first_loop.

(** ** The default sort *)

Section sorting.
Implicit Types (x y z : prim) (l : list prim).

Definition sorts_before (x y : prim) : Prop := sort_le x y = true.

Lemma sort_le_string x y :
  x ≠ PUndefined → y ≠ PUndefined →
  sort_le x y = String.leb (ToString x) (ToString y).
Proof. by destruct x, y. Qed.

Lemma sort_le_undefined_r x : sort_le x PUndefined = true.
Proof. by destruct x. Qed.

Lemma sort_le_undefined_l y : sort_le PUndefined y = true → y = PUndefined.
Proof. by destruct y. Qed.

#[local] Instance sorts_before_trans : Transitive sorts_before.
Proof.
  intros x y z Hxy Hyz. unfold sorts_before in *.
  destruct (decide (z = PUndefined)) as [->|Hz]; [apply sort_le_undefined_r|].
  destruct (decide (y = PUndefined)) as [->|Hy].
  { by apply sort_le_undefined_l in Hyz. }
  destruct (decide (x = PUndefined)) as [->|Hx].
  { by apply sort_le_undefined_l in Hxy. }
  rewrite sort_le_string in * by done.
  apply Is_true_true. change (String.le (ToString x) (ToString z)).
  transitivity (ToString y); by apply Is_true_true.
Qed.

Lemma sorts_before_total x y : sort_le x y = false → sort_le y x = true.
Proof.
  destruct (decide (x = PUndefined)) as [->|Hx]; [intros; apply sort_le_undefined_r|].
  destruct (decide (y = PUndefined)) as [->|Hy]; [by rewrite sort_le_undefined_r|].
  rewrite !sort_le_string by done. intros Hf.
  destruct (String.leb_total (ToString x) (ToString y)); congruence.
Qed.

Lemma sort_insert_perm x l : sort_insert x l ≡ₚ x :: l.
Proof.
  induction l as [|y l IH]; simpl; [done|].
  destruct (sort_le x y); [done|]. rewrite IH. apply Permutation_swap.
Qed.

Lemma Array_sort_perm l : Array_sort l ≡ₚ l.
Proof.
  induction l as [|x l IH]; simpl; [done|].
  by rewrite sort_insert_perm, IH.
Qed.

Lemma sort_insert_sorted x l :
  StronglySorted sorts_before l → StronglySorted sorts_before (sort_insert x l).
Proof.
  induction l as [|y l IH]; simpl; intros Hs.
  - repeat constructor.
  - apply StronglySorted_cons in Hs as [Hy Hs].
    destruct (sort_le x y) eqn:Hxy.
    + apply StronglySorted_cons. split; [|by apply StronglySorted_cons].
      constructor; [done|].
      eapply Forall_impl; [exact Hy|]. intros z Hz. by transitivity y.
    + apply StronglySorted_cons. split; [|auto].
      rewrite sort_insert_perm. constructor; [|done].
      by apply sorts_before_total.
Qed.

Lemma Array_sort_sorted l : StronglySorted sorts_before (Array_sort l).
Proof.
  induction l as [|x l IH]; simpl; [constructor|]. by apply sort_insert_sorted.
Qed.

(** [undefined] is moved to the end. *)
Lemma Array_sort_undefined_last l :
  PUndefined ∈ l → NoDup l →
  ∃ front, Array_sort l = front ++ [PUndefined] ∧ PUndefined ∉ front.
Proof.
  intros Hin Hnd.
  assert (NoDup (Array_sort l)) as Hnd' by (by rewrite Array_sort_perm).
  assert (PUndefined ∈ Array_sort l) as Hin' by (by rewrite Array_sort_perm).
  pose proof (Array_sort_sorted l) as Hs.
  destruct (Array_sort l) as [|x0 l0] using rev_ind; [by apply elem_of_nil in Hin'|].
  clear IHl0. rename x0 into last.
  apply NoDup_app in Hnd' as (_ & Hdisj & _).
  assert (last = PUndefined) as ->.
  { apply elem_of_app in Hin' as [Hin'|Hin'].
    - apply sort_le_undefined_l.
      eapply (StronglySorted_app_1_elem_of _ _ _ _ _ Hs); [done|].
      apply list_elem_of_singleton; done.
    - by apply list_elem_of_singleton in Hin'. }
  exists l0. split; [done|]. intros ?. eapply Hdisj; [done|].
  by apply list_elem_of_singleton.
Qed.
End sorting.

(** ** Properties of ordinary objects *)

(** The order in which an object enumerates two of its keys: array indices
    first, by numeric value; then the other keys.  For the keys [groupBy]
    creates, "the other keys" arrive in ascending string order. *)
Definition key_lt (a b : string) : Prop :=
  match array_index a, array_index b with
  | Some n, Some n' => (n < n')%N
  | Some _, None => True
  | None, Some _ => False
  | None, None => String.le a b ∧ a ≠ b
  end.

Section objects.
Implicit Types (o : object) (s : string) (v : loc) (n : N).

Lemma array_index_canonical s n :
  array_index s = Some n → s = NilZero.string_of_uint (N.to_uint n).
Proof.
  unfold array_index. destruct (NilZero.uint_of_string s) as [u|]; [|done].
  simpl. destruct (N.of_uint u <=? 4294967294)%N; [|done]. simpl.
  destruct (String.eqb_spec (NilZero.string_of_uint (N.to_uint (N.of_uint u))) s);
    [|done].
  by intros [= <-].
Qed.

Lemma array_index_inj s s' n :
  array_index s = Some n → array_index s' = Some n → s = s'.
Proof. intros ->%array_index_canonical ->%array_index_canonical. done. Qed.

#[local] Instance key_lt_trans : Transitive key_lt.
Proof.
  intros a b c. unfold key_lt.
  destruct (array_index a), (array_index b), (array_index c); try done.
  - apply N.lt_trans.
  - intros [Hab Hne] [Hbc Hne']. split; [by transitivity b|].
    intros ->. apply Hne. by apply (anti_symm String.le).
Qed.

Lemma get_prop_cons s' v' o s :
  get_prop ((s', v') :: o) s = if decide (s' = s) then Some v' else get_prop o s.
Proof.
  unfold get_prop; simpl. destruct (String.eqb_spec s' s).
  - by rewrite decide_True.
  - by rewrite decide_False.
Qed.

Lemma get_prop_None o s : get_prop o s = None ↔ s ∉ own_keys o.
Proof.
  unfold own_keys. induction o as [|[s' v'] o IH].
  - split; [intros _; apply not_elem_of_nil|done].
  - rewrite get_prop_cons, fmap_cons, not_elem_of_cons. simpl.
    destruct (decide (s' = s)) as [->|]; [split; [done|intros []; done]|].
    rewrite IH. split; [auto|intros []; done].
Qed.

Lemma has_prop_false o s : has_prop o s = false ↔ s ∉ own_keys o.
Proof.
  rewrite <- get_prop_None. unfold has_prop. destruct (get_prop o s); naive_solver.
Qed.

Lemma own_keys_update o s v : own_keys (update_prop o s v) = own_keys o.
Proof.
  unfold own_keys. induction o as [|[s' v'] o IH]; cbn [update_prop]; [done|].
  destruct (String.eqb s' s); [done|]. rewrite !fmap_cons. by rewrite IH.
Qed.

Lemma own_keys_insert_index o n s v :
  own_keys (insert_index o n s v) ≡ₚ s :: own_keys o.
Proof.
  unfold own_keys. induction o as [|[s' v'] o IH]; cbn [insert_index]; [done|].
  destruct (array_index s') as [n'|]; [|done].
  destruct (n' <? n)%N; [|done]. rewrite !fmap_cons, IH. apply Permutation_swap.
Qed.

Lemma get_prop_update o s v :
  s ∈ own_keys o → get_prop (update_prop o s v) s = Some v.
Proof.
  unfold own_keys. induction o as [|[s' v'] o IH]; simpl.
  - by intros ?%elem_of_nil.
  - intros Hin. destruct (String.eqb_spec s' s) as [->|Hne].
    + rewrite get_prop_cons. by rewrite decide_True.
    + rewrite get_prop_cons, decide_False by done.
      apply elem_of_cons in Hin as [?|?]; [congruence|auto].
Qed.

Lemma get_prop_insert_index o n s v :
  s ∉ own_keys o → get_prop (insert_index o n s v) s = Some v.
Proof.
  unfold own_keys. induction o as [|[s' v'] o IH]; simpl.
  - intros _. rewrite get_prop_cons. by rewrite decide_True.
  - rewrite not_elem_of_cons. intros [Hne Hnin].
    destruct (array_index s') as [n'|].
    + destruct (n' <? n)%N.
      * rewrite get_prop_cons, decide_False by done. auto.
      * rewrite get_prop_cons. by rewrite decide_True.
    + rewrite get_prop_cons. by rewrite decide_True.
Qed.

Lemma get_prop_app_new o s v :
  s ∉ own_keys o → get_prop (o ++ [(s, v)]) s = Some v.
Proof.
  unfold own_keys. induction o as [|[s' v'] o IH]; simpl.
  - intros _. rewrite get_prop_cons. by rewrite decide_True.
  - rewrite not_elem_of_cons. intros [Hne Hnin].
    rewrite get_prop_cons, decide_False by done. auto.
Qed.

(** Reading back the property just written. *)
Lemma get_prop_set_prop o s v : get_prop (set_prop o s v) s = Some v.
Proof.
  unfold set_prop. destruct (has_prop o s) eqn:Hhas.
  - apply get_prop_update. destruct (decide (s ∈ own_keys o)); [done|].
    apply has_prop_false in n. congruence.
  - apply has_prop_false in Hhas. destruct (array_index s).
    + by apply get_prop_insert_index.
    + by apply get_prop_app_new.
Qed.

Lemma elem_of_update_prop o s v p :
  p ∈ update_prop o s v → p ∈ o ∨ p = (s, v).
Proof.
  induction o as [|[s' v'] o IH]; simpl; [auto|].
  destruct (String.eqb_spec s' s) as [->|Hne].
  - intros [->|?]%elem_of_cons; [auto|]. left. by right.
  - intros [->|?]%elem_of_cons; [left; left|].
    destruct IH as [?|?]; [done| |auto]. left. by right.
Qed.

Lemma elem_of_insert_index o n s v p :
  p ∈ insert_index o n s v → p ∈ o ∨ p = (s, v).
Proof.
  induction o as [|[s' v'] o IH]; simpl.
  - intros ->%list_elem_of_singleton. auto.
  - destruct (array_index s') as [n'|].
    + destruct (n' <? n)%N.
      * intros [->|?]%elem_of_cons; [left; left|].
        destruct IH as [?|?]; [done| |auto]. left. by right.
      * intros [->|?]%elem_of_cons; auto.
    + intros [->|?]%elem_of_cons; auto.
Qed.

(** Every property of the object after a write was there before or is
    the one written. *)
Lemma elem_of_set_prop o s v p : p ∈ set_prop o s v → p ∈ o ∨ p = (s, v).
Proof.
  unfold set_prop. destruct (has_prop o s).
  - apply elem_of_update_prop.
  - destruct (array_index s).
    + apply elem_of_insert_index.
    + intros [?|Hp]%elem_of_app; [auto|].
      apply list_elem_of_singleton in Hp. auto.
Qed.

Lemma own_keys_set_prop o s v s' :
  s' ∈ own_keys (set_prop o s v) → s' ∈ own_keys o ∨ s' = s.
Proof.
  unfold own_keys. intros [[s1 v1] [-> Hin]]%list_elem_of_fmap.
  apply elem_of_set_prop in Hin as [Hin|[= -> ->]]; [|auto].
  left. apply list_elem_of_fmap. by exists (s1, v1).
Qed.

Lemma insert_index_sorted o n s v :
  array_index s = Some n → s ∉ own_keys o →
  StronglySorted key_lt (own_keys o) →
  StronglySorted key_lt (own_keys (insert_index o n s v)).
Proof.
  intros Hs. unfold own_keys. induction o as [|[s' v'] o IH]; simpl.
  - intros _ _. repeat constructor.
  - rewrite not_elem_of_cons, StronglySorted_cons. intros [Hne Hnin] [Hall Hsorted].
    assert (key_lt s s' → StronglySorted key_lt (s :: s' :: o.*1)) as Hfront.
    { intros Hlt. apply StronglySorted_cons. split.
      - constructor; [done|]. eapply Forall_impl; [exact Hall|].
        intros z Hz. by transitivity s'.
      - by apply StronglySorted_cons. }
    destruct (array_index s') as [n'|] eqn:Hs'.
    + destruct (N.ltb_spec n' n).
      * simpl. apply StronglySorted_cons. split; [|auto].
        change (Forall (key_lt s') (own_keys (insert_index o n s v))).
        rewrite own_keys_insert_index. constructor; [|done].
        unfold key_lt. by rewrite Hs', Hs.
      * apply Hfront. unfold key_lt. rewrite Hs, Hs'.
        destruct (decide (n = n')) as [<-|]; [|lia].
        destruct Hne. eauto using array_index_inj.
    + apply Hfront. unfold key_lt. by rewrite Hs, Hs'.
Qed.

(** A write keeps the keys in enumeration order, provided a new key that
    is not an array index is not below a key already there. *)
Lemma set_prop_sorted o s v :
  StronglySorted key_lt (own_keys o) →
  (∀ s', s' ∈ own_keys o → array_index s' = None → String.le s' s) →
  StronglySorted key_lt (own_keys (set_prop o s v)).
Proof.
  intros Hsorted Hle. unfold set_prop. destruct (has_prop o s) eqn:Hhas.
  - by rewrite own_keys_update.
  - apply has_prop_false in Hhas. destruct (array_index s) as [n|] eqn:Hs.
    + by apply insert_index_sorted.
    + unfold own_keys. rewrite fmap_app. apply StronglySorted_app_2; [|done|].
      * intros s1 s2 Hin ->%list_elem_of_singleton. unfold key_lt. simpl.
        rewrite Hs. destruct (array_index s1) eqn:Hs1; [done|].
        split; [auto|]. by intros ->.
      * repeat constructor.
Qed.
Lemma own_keys_set_prop_elem o s v : s ∈ own_keys (set_prop o s v).
Proof.
  destruct (decide (s ∈ own_keys (set_prop o s v))) as [|Hnin]; [done|].
  apply get_prop_None in Hnin. by rewrite get_prop_set_prop in Hnin.
Qed.

Lemma own_keys_set_prop_mono o s v s' :
  s' ∈ own_keys o → s' ∈ own_keys (set_prop o s v).
Proof.
  intros Hin. unfold set_prop. destruct (has_prop o s).
  - by rewrite own_keys_update.
  - destruct (array_index s).
    + rewrite own_keys_insert_index. by right.
    + unfold own_keys in *. rewrite fmap_app. apply elem_of_app. by left.
Qed.

(** A write never makes two properties of one name. *)
Lemma NoDup_own_keys_set_prop o s v :
  NoDup (own_keys o) → NoDup (own_keys (set_prop o s v)).
Proof.
  intros Hnd. unfold set_prop. destruct (has_prop o s) eqn:Hhas.
  - by rewrite own_keys_update.
  - apply has_prop_false in Hhas. destruct (array_index s).
    + rewrite own_keys_insert_index. by constructor.
    + unfold own_keys in *. rewrite fmap_app. apply NoDup_app. split; [done|].
      split; [|apply NoDup_singleton].
      intros s' Hs' Heq%list_elem_of_singleton. simpl in Heq. by subst s'.
Qed.
End objects.

(** ** The second loop of groupBy *)

(** The keys whose assignment creates a property: all but the one whose
    string is [__proto__]. *)
Definition own_name (key : prim) : Prop := ToString key ≠ "__proto__".

#[global] Instance own_name_dec key : Decision (own_name key).
Proof. unfold own_name. apply _. Defined.

Lemma int_of_string_ToString n :
  NilZero.int_of_string (ToString (PNum n)) = Some (Z.to_int n).
Proof.
  simpl. apply NilZero.isi; destruct n; simpl; try discriminate;
    intros [= Hnil]; by apply (Unsigned.to_uint_nonnil p).
Qed.

Lemma ToString_PNum_inj n n' : ToString (PNum n) = ToString (PNum n') → n = n'.
Proof.
  intros Heq. apply DecimalZ.to_int_inj.
  apply (f_equal NilZero.int_of_string) in Heq.
  rewrite !int_of_string_ToString in Heq. congruence.
Qed.

(** The string of a number is a numeral, never [__proto__]. *)
Lemma own_name_PNum n : own_name (PNum n).
Proof.
  intros Heq. apply (f_equal NilZero.int_of_string) in Heq.
  rewrite int_of_string_ToString in Heq. discriminate.
Qed.

Section second_loop.
Context (m : Map).

(** The properties of [result] after the assignments for the keys [keys]
    that create one. *)
Fixpoint emit_props (o : object) (keys : list prim) : object :=
  match keys with
  | [] => o
  | key :: rest =>
      emit_props (set_prop o (ToString key) (default 0 (Map_get m key))) rest
  end.

(** The prototype of [result] after the assignments for [keys]. *)
Fixpoint emit_proto (proto : option loc) (keys : list prim) : option loc :=
  match keys with
  | [] => proto
  | key :: rest =>
      emit_proto (if decide (own_name key) then proto
                  else Some (default 0 (Map_get m key))) rest
  end.

Lemma Map_get_is_Some k : k ∈ m.*1 → is_Some (Map_get m k).
Proof.
  intros Hin. destruct (Map_get m k) eqn:Hget; [eauto|].
  by apply Map_get_None in Hget.
Qed.

Lemma emit_all_props result h proto o keys :
  h !! result = Some (CObject proto o) →
  Forall (λ k, k ∈ m.*1) keys →
  emit_all m result h keys
  = Some (<[result := CObject (emit_proto proto keys)
                              (emit_props o (filter own_name keys))]> h).
Proof.
  revert h proto o. induction keys as [|key keys IH]; intros h proto o Hres Hkeys.
  - simpl. f_equal. symmetry. by apply list_insert_id.
  - apply Forall_cons in Hkeys as [Hkey Hkeys].
    destruct (Map_get_is_Some _ Hkey) as [v Hv].
    pose proof (lookup_lt_Some _ _ _ Hres) as Hlt.
    cbn [emit_all emit_proto]. unfold emit_one, read_object.
    rewrite Hv, Hres. simpl.
    destruct (decide (own_name key)) as [Hown|Hown].
    + rewrite filter_cons_True by done. cbn [emit_props]. rewrite Hv. simpl.
      apply String.eqb_neq in Hown. rewrite Hown.
      erewrite IH; [|by apply list_lookup_insert_eq|done].
      by rewrite list_insert_insert_eq.
    + rewrite filter_cons_False by done.
      apply dec_stable in Hown. apply String.eqb_eq in Hown. rewrite Hown.
      erewrite IH; [|by apply list_lookup_insert_eq|done].
      by rewrite list_insert_insert_eq.
Qed.

(** Without a key named [__proto__] the prototype stays as it is. *)
Lemma emit_proto_own proto keys :
  Forall own_name keys → emit_proto proto keys = proto.
Proof.
  revert proto. induction keys as [|key keys IH]; intros proto Hkeys; [done|].
  apply Forall_cons in Hkeys as [Hkey Hkeys]. simpl.
  rewrite decide_True by done. by apply IH.
Qed.

Lemma emit_props_snoc o keys key :
  emit_props o (keys ++ [key])
  = set_prop (emit_props o keys) (ToString key) (default 0 (Map_get m key)).
Proof. revert o. induction keys as [|k keys IH]; intros o; simpl; auto. Qed.

(** Every property of [result] carries the bucket of one of the keys. *)
Lemma elem_of_emit_props o keys p :
  p ∈ emit_props o keys →
  p ∈ o ∨ ∃ k, k ∈ keys ∧ p = (ToString k, default 0 (Map_get m k)).
Proof.
  revert o. induction keys as [|key keys IH]; intros o; simpl; [auto|].
  intros [Hin|(k & ? & ?)]%IH.
  - apply elem_of_set_prop in Hin as [?|?]; [auto|].
    right. exists key. split; [left|done].
  - right. exists k. split; [by right|done].
Qed.

(** Keys that arrive in string order leave the object in enumeration
    order. *)
Lemma emit_props_sorted o keys :
  PUndefined ∉ keys →
  StronglySorted sorts_before keys →
  StronglySorted key_lt (own_keys o) →
  (∀ s k, s ∈ own_keys o → k ∈ keys → String.le s (ToString k)) →
  StronglySorted key_lt (own_keys (emit_props o keys)).
Proof.
  revert o. induction keys as [|key keys IH]; intros o Hu Hkeys Ho Hle; [done|].
  apply not_elem_of_cons in Hu as [Hkey Hu].
  apply StronglySorted_cons in Hkeys as [Hall Hkeys].
  simpl. apply IH; [done|done| |].
  - apply set_prop_sorted; [done|]. intros s' Hs' _. apply Hle; [done|left].
  - intros s k [Hs| ->]%own_keys_set_prop Hk.
    + apply Hle; [done|by right].
    + rewrite Forall_forall in Hall. specialize (Hall _ Hk).
      unfold sorts_before in Hall.
      rewrite sort_le_string in Hall; [by apply Is_true_true|done|].
      intros ->. done.
Qed.
Lemma NoDup_own_keys_emit_props o keys :
  NoDup (own_keys o) → NoDup (own_keys (emit_props o keys)).
Proof.
  revert o. induction keys as [|key keys IH]; intros o Hnd; [done|].
  simpl. by apply IH, NoDup_own_keys_set_prop.
Qed.

Lemma own_keys_emit_props_mono o keys s :
  s ∈ own_keys o → s ∈ own_keys (emit_props o keys).
Proof.
  revert o. induction keys as [|key keys IH]; intros o Hin; [done|].
  simpl. by apply IH, own_keys_set_prop_mono.
Qed.

(** Every key that is written names a property of [result]. *)
Lemma own_keys_emit_props_elem o keys k :
  k ∈ keys → ToString k ∈ own_keys (emit_props o keys).
Proof.
  revert o. induction keys as [|key keys IH]; intros o Hin.
  - by apply elem_of_nil in Hin.
  - simpl. apply elem_of_cons in Hin as [->|Hin]; [|by apply IH].
    apply own_keys_emit_props_mono, own_keys_set_prop_elem.
Qed.
End second_loop.

(** ** The whole function *)

Definition all_records (h : heap) (items : list loc) : Prop :=
  Forall (λ o, is_Some (read_record h o)) items.

(** On an array of records the call returns; the store it leaves is the
    one of the first loop with the returned object added. *)
Lemma groupBy_returns h objects items property :
  read_array h objects = Some items →
  all_records h items →
  ∃ h1 m,
    grouped (as_function property) h items h1 m
    ∧ groupBy h objects property
      = Some (length h1,
              <[length h1 :=
                  CObject (emit_proto m None (Array_sort (Map_keys m)))
                          (emit_props m [] (filter own_name (Array_sort (Map_keys m))))]>
                (h1 ++ [CObject None []])).
Proof.
  intros Harr Hrecs.
  destruct (group_all_grouped (as_function property) h items [] h []
              (grouped_init _ _) Hrecs) as (h1 & m & Hloop & Hg).
  exists h1, m. split; [done|].
  unfold groupBy. rewrite Harr. simpl. rewrite Hloop. simpl.
  rewrite (emit_all_props m (length h1) (h1 ++ [CObject None []]) None []).
  - done.
  - by rewrite lookup_app_r, Nat.sub_diag.
  - apply Forall_forall. intros k Hk. unfold Map_keys in Hk.
    by rewrite Array_sort_perm in Hk.
Qed.

(** The store and the returned object at the end of a call, in terms of
    the input.  Every later statement about [groupBy] reads off this one. *)
Lemma groupBy_final h objects items property :
  read_array h objects = Some items →
  all_records h items →
  ∃ result h' m,
    groupBy h objects property = Some (result, h')
    ∧ (∀ l c, h !! l = Some c → h' !! l = Some c)
    ∧ length h ≤ result
    ∧ read_object h' result
      = Some (emit_props m [] (filter own_name (Array_sort (Map_keys m))))
    ∧ read_proto h' result = Some (emit_proto m None (Array_sort (Map_keys m)))
    ∧ NoDup (Map_keys m)
    ∧ (∀ k, k ∈ Map_keys m ↔ k ∈ key_of (as_function property) h <$> items)
    ∧ (∀ k l, (k, l) ∈ m →
         read_array h' l = Some (bucket_of (as_function property) h k items)).
Proof.
  intros Harr Hrecs.
  destruct (groupBy_returns h objects items property Harr Hrecs)
    as (h1 & m & [Hfr Hk Hl Hdom Hb] & Hcall).
  assert (length h ≤ length h1) as Hlen.
  { destruct (decide (length h ≤ length h1)); [done|].
    destruct (lookup_lt_is_Some_2 h (length h1)) as [c Hc]; [lia|].
    apply Hfr, lookup_lt_Some in Hc. lia. }
  eexists _, _, m. split; [exact Hcall|]. repeat split; try done.
  - intros l c Hl0. pose proof (lookup_lt_Some _ _ _ Hl0).
    rewrite list_lookup_insert_ne by lia. rewrite lookup_app_l by lia. auto.
  - apply read_object_lookup. eexists. apply list_lookup_insert_eq.
    rewrite length_app. simpl. lia.
  - eapply read_proto_lookup. apply list_lookup_insert_eq.
    rewrite length_app. simpl. lia.
  - apply Hdom.
  - apply Hdom.
  - intros k l Hin. destruct (Hb _ _ Hin) as [_ Hc].
    pose proof (lookup_lt_Some _ _ _ Hc).
    apply read_array_lookup. rewrite list_lookup_insert_ne by lia.
    by rewrite lookup_app_l by lia.
Qed.

(** ** A list split by key *)

Section buckets.
Context {K : Type} `{EqDecision K} (key : loc → K).

Lemma concat_buckets_perm ks (items : list loc) :
  NoDup ks →
  (∀ o, o ∈ items → key o ∈ ks) →
  concat ((λ k, filter (λ o, key o = k) items) <$> ks) ≡ₚ items.
Proof.
  intros Hnd. revert items. induction Hnd as [|k ks Hk Hnd IH]; intros items Hall.
  - destruct items as [|o items]; [done|].
    destruct (not_elem_of_nil (key o)). apply Hall. left.
  - rewrite fmap_cons, concat_cons.
    etransitivity; [|apply (filter_app_complement (λ o, key o = k) items)].
    apply Permutation_app_head.
    assert ((λ k', filter (λ o, key o = k') items) <$> ks
            = (λ k', filter (λ o, key o = k') (filter (λ o, key o ≠ k) items)) <$> ks)
      as ->.
    { apply Forall_fmap_ext_1, Forall_forall. intros k' Hk'. symmetry.
      apply list_filter_filter_l. intros o Ho1 Ho2. apply Hk. congruence. }
    apply IH. intros o [Hne Ho]%list_elem_of_filter.
    pose proof (Hall o Ho) as Hin. apply elem_of_cons in Hin as [?|?]; done.
Qed.

Lemma concat_buckets_submseteq ks (items : list loc) :
  NoDup ks →
  concat ((λ k, filter (λ o, key o = k) items) <$> ks) ⊆+ items.
Proof.
  intros Hnd.
  transitivity (filter (λ o, key o ∈ ks) items);
    [|apply sublist_submseteq, sublist_filter].
  apply Permutation_submseteq.
  assert ((λ k, filter (λ o, key o = k) items) <$> ks
          = (λ k, filter (λ o, key o = k) (filter (λ o, key o ∈ ks) items)) <$> ks)
    as ->.
  { apply Forall_fmap_ext_1, Forall_forall. intros k Hk. symmetry.
    apply list_filter_filter_l. by intros o ->. }
  apply concat_buckets_perm; [done|]. by intros o [? _]%list_elem_of_filter.
Qed.
End buckets.

(** The groups a caller reads from the returned object.  They are the
    buckets of a list [ks] of keys of the input, one group per key of [ks],
    named by the string of the key; the strings are pairwise distinct, none
    is [__proto__], and every key of the input with another string has its
    string among them. *)
Lemma groupBy_groups h objects items property :
  read_array h objects = Some items →
  all_records h items →
  ∃ result h' groups ks,
    groupBy h objects property = Some (result, h')
    ∧ groups_of h' result = Some groups
    ∧ groups
      = (λ k, (ToString k, bucket_of (as_function property) h k items)) <$> ks
    ∧ NoDup (ToString <$> ks)
    ∧ (∀ k, k ∈ ks → own_name k ∧ k ∈ key_of (as_function property) h <$> items)
    ∧ (∀ k, k ∈ key_of (as_function property) h <$> items → own_name k →
         ∃ k', k' ∈ ks ∧ ToString k' = ToString k).
Proof.
  intros Harr Hrecs.
  destruct (groupBy_final h objects items property Harr Hrecs)
    as (result & h' & m & Hcall & _ & _ & Hobj & _ & Hnd & Hdom & Hb).
  set (o := emit_props m [] (filter own_name (Array_sort (Map_keys m)))) in *.
  assert (Forall (λ p, ∃ k, p.1 = ToString k ∧ own_name k ∧ (k, p.2) ∈ m) o)
    as Hprops.
  { apply Forall_forall.
    intros p [Hp|(k & Hk & ->)]%elem_of_emit_props; [by apply elem_of_nil in Hp|].
    apply list_elem_of_filter in Hk as [Hown Hk].
    rewrite Array_sort_perm in Hk.
    destruct (Map_get_is_Some m k Hk) as [l Hl]. rewrite Hl. simpl.
    exists k. split; [done|]. split; [done|]. by apply Map_get_Some. }
  assert (∃ ks, Forall2 (λ p k, p.1 = ToString k ∧ own_name k ∧ (k, p.2) ∈ m) o ks)
    as [ks Hks].
  { clear -Hprops. induction Hprops as [|p o (k & ? & ?) _ [ks IH]].
    - exists []. constructor.
    - exists (k :: ks). by constructor. }
  assert (own_keys o = ToString <$> ks) as Hnames.
  { unfold own_keys. clear -Hks. induction Hks as [|p k o ks [? _] _ IH]; [done|].
    rewrite !fmap_cons. by f_equal. }
  eexists result, h', _, ks. split; [done|]. split; [|split; [reflexivity|]].
  - unfold groups_of. rewrite Hobj. simpl. apply mapM_Some_2.
    apply Forall2_fmap_r. eapply Forall2_impl; [exact Hks|].
    intros p k (Hs & _ & Hin). simpl. rewrite (Hb _ _ Hin). simpl.
    destruct p as [s l]; simpl in *. by subst s.
  - split; [|split].
    + rewrite <- Hnames. apply NoDup_own_keys_emit_props. apply NoDup_nil_2.
    + intros k Hk.
      apply list_elem_of_lookup in Hk as [i Hi].
      destruct (Forall2_lookup_r _ _ _ _ _ Hks Hi) as (p & _ & _ & Hown & Hin).
      split; [done|]. apply Hdom. unfold Map_keys.
      apply list_elem_of_fmap. by exists (k, p.2).
    + intros k Hk%Hdom Hown.
      assert (ToString k ∈ own_keys o) as Hin.
      { apply own_keys_emit_props_elem. apply list_elem_of_filter.
        split; [done|]. by rewrite Array_sort_perm. }
      rewrite Hnames in Hin. apply list_elem_of_fmap in Hin as (k' & ? & ?).
      by exists k'.
Qed.

(** The groups as a part of the input: no record twice, and every record
    when the keys of the input have pairwise distinct strings, none of them
    [__proto__]. *)
Lemma groups_part_of_input h objects items property :
  read_array h objects = Some items →
  all_records h items →
  ∃ result h' groups,
    groupBy h objects property = Some (result, h')
    ∧ groups_of h' result = Some groups
    ∧ NoDup groups.*1
    ∧ concat groups.*2 ⊆+ items
    ∧ ((∀ o, o ∈ items → own_name (key_of (as_function property) h o)) →
       (∀ o1 o2, o1 ∈ items → o2 ∈ items →
          ToString (key_of (as_function property) h o1)
          = ToString (key_of (as_function property) h o2) →
          key_of (as_function property) h o1 = key_of (as_function property) h o2) →
       concat groups.*2 ≡ₚ items).
Proof.
  intros Harr Hrecs.
  destruct (groupBy_groups h objects items property Harr Hrecs)
    as (result & h' & groups & ks & Hcall & Hgroups & -> & Hnd & Hsound & Hcompl).
  eexists result, h', _. split; [done|]. split; [done|].
  rewrite <- !list_fmap_compose.
  split; [exact Hnd|]. apply NoDup_fmap_1 in Hnd. split.
  - by apply concat_buckets_submseteq.
  - intros Hown Hinj. apply concat_buckets_perm; [done|].
    intros o Ho.
    destruct (Hcompl (key_of (as_function property) h o)) as (k' & Hk' & Heq).
    { apply list_elem_of_fmap. by exists o. }
    { by apply Hown. }
    destruct (proj1 (list_elem_of_fmap _ _ _) (proj2 (Hsound k' Hk')))
      as (o' & -> & Ho').
    by rewrite <- (Hinj o' o Ho' Ho Heq).
Qed.

(** No record is in two groups of the returned object.  None is
    missing when the keys of the input are plain values with pairwise
    distinct strings, none of them the string [__proto__]. *)
Theorem groupBy_partition h objects items property :
  read_array h objects = Some items →
  all_records h items →
  ∃ result h' groups,
    groupBy h objects property = Some (result, h')
    ∧ groups_of h' result = Some groups
    ∧ NoDup groups.*1
    ∧ concat groups.*2 ⊆+ items
    ∧ ((∀ o, o ∈ items →
          plain (key_of (as_function property) h o)
          ∧ own_name (key_of (as_function property) h o)) →
       (∀ o1 o2, o1 ∈ items → o2 ∈ items →
          ToString (key_of (as_function property) h o1)
          = ToString (key_of (as_function property) h o2) →
          key_of (as_function property) h o1 = key_of (as_function property) h o2) →
       concat groups.*2 ≡ₚ items).
Proof.
  intros Harr Hrecs.
  destruct (groups_part_of_input h objects items property Harr Hrecs)
    as (result & h' & groups & Hcall & Hgroups & Hnd & Hsub & Hall).
  exists result, h', groups. repeat (split; [done|]).
  intros Hkeys Hinj. apply Hall; [|done]. intros o Ho. by apply Hkeys.
Qed.

(** The example of the comment above [groupBy], and the one of the
    specification. *)
Example groupBy_teams :
  run_groupBy team_records (Name "team") = Some [("blue", [0; 2]); ("red", [1])].
Proof. reflexivity. Qed.

Example groupBy_b_a_b :
  run_groupBy [ {[ "t" := PStr "b" ]}; {[ "t" := PStr "a" ]}; {[ "t" := PStr "b" ]} ]
              (Name "t")
  = Some [("a", [1]); ("b", [0; 2])].
Proof. reflexivity. Qed.

(** * The claims *)

(** ** C7 *)

Lemma read_object_alloc (h : heap) proto o :
  read_object (h ++ [CObject proto o]) (length h) = Some o.
Proof. unfold read_object. by rewrite lookup_app_r, Nat.sub_diag. Qed.

(** With no item to group, the call allocates the empty object and returns it. *)
Lemma groupBy_no_items h objects property :
  read_array h objects = Some [] →
  groupBy h objects property = Some (length h, h ++ [CObject None []]).
Proof. intros Harr. unfold groupBy. by rewrite Harr. Qed.

(** C7.  On an empty input array, whatever the key selector, [groupBy]
    returns an object with no property: a mapping with no group. *)
Theorem groupBy_empty h objects property :
  read_array h objects = Some [] →
  ∃ result h',
    groupBy h objects property = Some (result, h')
    ∧ read_object h' result = Some []
    ∧ groups_of h' result = Some [].
Proof.
  intros Harr. exists (length h), (h ++ [CObject None []]).
  split; [by apply groupBy_no_items|]. split; [apply read_object_alloc|].
  unfold groups_of. by rewrite read_object_alloc.
Qed.

Lemma groupBy_empty_witness :
  ∃ result h',
    groupBy [CArray []] 0 (Name "numSyllables") = Some (result, h')
    ∧ read_object h' result = Some []
    ∧ groups_of h' result = Some [].
Proof. apply (groupBy_empty [CArray []] 0 (Name "numSyllables")). reflexivity. Defined.

(** ** C3 *)

(** C3.  Each group of the returned object holds, in input order, the
    records of the input that have one key: it is the input with the other
    records left out, so any two of its records are in the order the input
    has them. *)
Theorem groupBy_stable h objects items property :
  read_array h objects = Some items →
  all_records h items →
  ∃ result h' groups,
    groupBy h objects property = Some (result, h')
    ∧ groups_of h' result = Some groups
    ∧ ∀ s bucket, (s, bucket) ∈ groups →
        sublist bucket items
        ∧ ∃ k, s = ToString k
               ∧ bucket = filter (λ o, key_of (as_function property) h o = k) items.
Proof.
  intros Harr Hrecs.
  destruct (groupBy_groups h objects items property Harr Hrecs)
    as (result & h' & groups & ks & Hcall & Hgroups & -> & _).
  eexists result, h', _. split; [done|]. split; [done|].
  intros s bucket (k & [= -> ->] & _)%list_elem_of_fmap.
  split; [apply sublist_filter|]. by exists k.
Qed.

Lemma groupBy_stable_witness :
  ∃ result h' groups,
    groupBy team_heap team_objects (Name "team") = Some (result, h')
    ∧ groups_of h' result = Some groups
    ∧ ∀ s bucket, (s, bucket) ∈ groups →
        sublist bucket [0; 1; 2]
        ∧ ∃ k, s = ToString k
               ∧ bucket
                 = filter (λ o, key_of (as_function (Name "team")) team_heap o = k)
                          [0; 1; 2].
Proof.
  apply (groupBy_stable team_heap team_objects [0; 1; 2] (Name "team")).
  - reflexivity.
  - repeat constructor; eexists; reflexivity.
Defined.

(** ** C5 *)

(** C5.  A call changes no cell of the store it was given: the input array
    holds the same records and every record has the same fields after the
    call; the returned object is a new cell. *)
Theorem groupBy_pure h objects items property :
  read_array h objects = Some items →
  all_records h items →
  ∃ result h',
    groupBy h objects property = Some (result, h')
    ∧ (∀ l c, h !! l = Some c → h' !! l = Some c)
    ∧ read_array h' objects = Some items
    ∧ (∀ o, o ∈ items → read_record h' o = read_record h o)
    ∧ h !! result = None.
Proof.
  intros Harr Hrecs.
  destruct (groupBy_final h objects items property Harr Hrecs)
    as (result & h' & m & Hcall & Hfr & Hfresh & _).
  exists result, h'. split; [done|]. split; [done|]. split; [|split].
  - apply read_array_lookup, Hfr. by apply read_array_lookup.
  - intros o Ho. unfold all_records in Hrecs. rewrite Forall_forall in Hrecs.
    destruct (Hrecs o Ho) as [r Hr]. rewrite Hr.
    apply read_record_lookup, Hfr. by apply read_record_lookup.
  - by apply lookup_ge_None.
Qed.

Lemma groupBy_pure_witness :
  ∃ result h',
    groupBy team_heap team_objects (Name "team") = Some (result, h')
    ∧ (∀ l c, team_heap !! l = Some c → h' !! l = Some c)
    ∧ read_array h' team_objects = Some [0; 1; 2]
    ∧ (∀ o, o ∈ [0; 1; 2] → read_record h' o = read_record team_heap o)
    ∧ team_heap !! result = None.
Proof.
  apply (groupBy_pure team_heap team_objects [0; 1; 2] (Name "team")).
  - reflexivity.
  - repeat constructor; eexists; reflexivity.
Defined.

(** ** C4 *)

(** The first loop never turns a cell into a record or a record into
    something else. *)
Lemma group_one_records p h m o h' m' :
  group_one p (h, m) o = Some (h', m') →
  ∀ l, read_record h' l = read_record h l.
Proof.
  unfold group_one. destruct (read_record h o) as [r|]; [simpl|done].
  assert (∀ (h1 : heap) b xs ys l,
            read_array h1 b = Some xs →
            read_record (<[b := CArray ys]> h1) l = read_record h1 l) as Hpush.
  { intros h1 b xs ys l Hb%read_array_lookup. unfold read_record.
    destruct (decide (b = l)) as [->|].
    - rewrite list_lookup_insert_eq by (by eapply lookup_lt_Some). by rewrite Hb.
    - by rewrite list_lookup_insert_ne. }
  assert (∀ l, read_record (h ++ [CArray []]) l = read_record h l) as Halloc.
  { intros l. unfold read_record. destruct (decide (l < length h)).
    - by rewrite lookup_app_l.
    - rewrite (lookup_ge_None_2 h l) by lia.
      destruct (decide (l = length h)) as [->|].
      + by rewrite lookup_app_r, Nat.sub_diag.
      + rewrite lookup_ge_None_2; [done|]. rewrite length_app. simpl. lia. }
  destruct (Map_has m (p r)); simpl.
  - destruct (Map_get m (p r)) as [b|]; [simpl|done].
    unfold Array_push. destruct (read_array h b) as [xs|] eqn:Hb; [simpl|done].
    intros [= <- <-] l. eauto.
  - destruct (Map_get (Map_set m (p r) (length h)) (p r)) as [b|]; [simpl|done].
    unfold Array_push.
    destruct (read_array (h ++ [CArray []]) b) as [xs|] eqn:Hb; [simpl|done].
    intros [= <- <-] l. erewrite Hpush by done. apply Halloc.
Qed.

(** Two key functions that agree on the records of the input make the
    first loop do the same thing. *)
Lemma group_all_ext p q items h m :
  (∀ o r, o ∈ items → read_record h o = Some r → p r = q r) →
  group_all p (h, m) items = group_all q (h, m) items.
Proof.
  revert h m. induction items as [|o items IH]; intros h m Hagree; [done|].
  cbn [group_all].
  assert (group_one p (h, m) o = group_one q (h, m) o) as <-.
  { unfold group_one. destruct (read_record h o) as [r|] eqn:Hr; [|done].
    simpl. rewrite (Hagree o r); [done|left|done]. }
  destruct (group_one p (h, m) o) as [[h1 m1]|] eqn:Hstep; [simpl|done].
  apply IH. intros o' r Ho' Hr. apply (Hagree o'); [by right|].
  by rewrite <- (group_one_records _ _ _ _ _ _ Hstep).
Qed.

(** C4.  When every record of the input holds in field [propName] the
    value the function [f] gives for it, grouping by the function and
    grouping by the field name return the same object in the same store:
    equal keys, equal buckets. *)
Theorem groupBy_function_as_field h objects items propName f :
  read_array h objects = Some items →
  all_records h items →
  (∀ o r, o ∈ items → read_record h o = Some r → get_field r propName = f r) →
  ∃ result h' groups,
    groupBy h objects (Function f) = Some (result, h')
    ∧ groupBy h objects (Name propName) = Some (result, h')
    ∧ groups_of h' result = Some groups.
Proof.
  intros Harr Hrecs Hpre.
  destruct (groupBy_groups h objects items (Function f) Harr Hrecs)
    as (result & h' & groups & ks & Hcall & Hgroups & _).
  exists result, h', groups. split; [done|]. split; [|done].
  rewrite <- Hcall. unfold groupBy. rewrite Harr. simpl.
  by rewrite (group_all_ext (λ obj, get_field obj propName) f items h []).
Qed.

(** Parity of the syllable count, as a key function. *)
Definition parity (obj : record) : prim :=
  match get_field obj "n" with
  | PNum n => PStr (if Z.even n then "even" else "odd")
  | _ => PUndefined
  end.

Definition parity_records : list record :=
  [ {[ "n" := PNum 1; "parity" := PStr "odd" ]};
    {[ "n" := PNum 2; "parity" := PStr "even" ]};
    {[ "n" := PNum 3; "parity" := PStr "odd" ]} ].

Definition parity_heap : heap := (alloc_records [] parity_records).2.

Lemma groupBy_function_as_field_witness :
  ∃ result h' groups,
    groupBy parity_heap 3 (Function parity) = Some (result, h')
    ∧ groupBy parity_heap 3 (Name "parity") = Some (result, h')
    ∧ groups_of h' result = Some groups.
Proof.
  apply (groupBy_function_as_field parity_heap 3 [0; 1; 2] "parity" parity).
  - reflexivity.
  - repeat constructor; eexists; reflexivity.
  - intros o r Ho Hr.
    repeat (apply elem_of_cons in Ho as [->|Ho]; [by injection Hr as <-|]).
    by apply elem_of_nil in Ho.
Defined.

(** ** C6 *)

Lemma get_field_absent (obj : record) propName :
  obj !! propName = None →
  Object_prototype propName = PUndefined →
  get_field obj propName = PUndefined.
Proof. unfold get_field. by intros -> ->. Qed.

Lemma filter_own_name_undefined_last front :
  filter own_name (front ++ [PUndefined]) = filter own_name front ++ [PUndefined].
Proof. rewrite filter_app. f_equal. Qed.

(** A record that has no field [constructor] of its own. *)
Definition bare_records : list record := [ {[ "word" := PStr "cat" ]} ].

Definition bare_heap : heap := (alloc_records [] bare_records).2.

(** C6 as the claim words it fails for a name every object inherits: the
    record lacks the field [constructor], reading it gives the inherited
    function, and the record is in the group named by that function; no
    group is named ["undefined"]. *)
Lemma groupBy_undefined_key_counterexample :
  ∃ result h' groups obj,
    groupBy bare_heap 1 (Name "constructor") = Some (result, h')
    ∧ read_object h' result = Some groups
    ∧ read_record bare_heap 0 = Some obj
    ∧ obj !! "constructor" = None
    ∧ as_function (Name "constructor") obj = PBuiltin B_constructor
    ∧ get_prop groups "undefined" = None
    ∧ groups_of h' result = Some [(builtin_source B_constructor, [0])].
Proof. by eexists _, _, _, _. Qed.

(** C6, amended.  On an array of records the call returns, whichever
    fields the records have.  A record for which the selector gives
    [undefined] (for a property name: the record has no such field and the
    name is not one that [Object.prototype] defines) is in the group of the
    returned object under the key ["undefined"], and that group holds
    exactly the records whose key is [undefined], in input order. *)
Theorem groupBy_undefined_key h objects items property :
  read_array h objects = Some items →
  all_records h items →
  ∃ result h' groups,
    groupBy h objects property = Some (result, h')
    ∧ read_object h' result = Some groups
    ∧ ∀ o obj, o ∈ items → read_record h o = Some obj →
        (∃ propName, property = Name propName ∧ obj !! propName = None
                     ∧ Object_prototype propName = PUndefined)
        ∨ as_function property obj = PUndefined →
        ∃ l bucket,
          get_prop groups "undefined" = Some l
          ∧ read_array h' l = Some bucket
          ∧ o ∈ bucket
          ∧ bucket
            = filter (λ o', key_of (as_function property) h o' = PUndefined) items.
Proof.
  intros Harr Hrecs.
  destruct (groupBy_final h objects items property Harr Hrecs)
    as (result & h' & m & Hcall & _ & _ & Hobj & _ & Hnd & Hdom & Hb).
  eexists result, h', _. split; [done|]. split; [done|].
  intros o obj Ho Hobj' Hundef.
  assert (key_of (as_function property) h o = PUndefined) as Hkey.
  { unfold key_of. rewrite Hobj'. simpl.
    destruct Hundef as [(propName & -> & Habs & Hproto)|?]; [|done].
    by apply get_field_absent. }
  assert (PUndefined ∈ Map_keys m) as Hin.
  { apply Hdom. apply list_elem_of_fmap. by exists o. }
  destruct (Array_sort_undefined_last _ Hin Hnd) as (front & -> & _).
  destruct (Map_get_is_Some m _ Hin) as [l Hl].
  exists l, (bucket_of (as_function property) h PUndefined items).
  split; [|split; [|split]].
  - rewrite filter_own_name_undefined_last, emit_props_snoc, Hl.
    apply get_prop_set_prop.
  - apply Hb. by apply Map_get_Some.
  - unfold bucket_of. by apply list_elem_of_filter.
  - done.
Qed.

(** A record without the field among records that have it, and one whose
    field is the string ["undefined"]. *)
Definition partial_records : list record :=
  [ {[ "word" := PStr "cat"; "numSyllables" := PNum 1 ]};
    {[ "word" := PStr "bat" ]};
    {[ "word" := PStr "hat"; "numSyllables" := PStr "undefined" ]} ].

Definition partial_heap : heap := (alloc_records [] partial_records).2.

Lemma groupBy_undefined_key_witness :
  ∃ result h' groups,
    groupBy partial_heap 3 (Name "numSyllables") = Some (result, h')
    ∧ read_object h' result = Some groups
    ∧ ∀ o obj, o ∈ [0; 1; 2] → read_record partial_heap o = Some obj →
        (∃ propName, Name "numSyllables" = Name propName ∧ obj !! propName = None
                     ∧ Object_prototype propName = PUndefined)
        ∨ as_function (Name "numSyllables") obj = PUndefined →
        ∃ l bucket,
          get_prop groups "undefined" = Some l
          ∧ read_array h' l = Some bucket
          ∧ o ∈ bucket
          ∧ bucket
            = filter (λ o', key_of (as_function (Name "numSyllables")) partial_heap o'
                            = PUndefined) [0; 1; 2].
Proof.
  apply (groupBy_undefined_key partial_heap 3 [0; 1; 2] (Name "numSyllables")).
  - reflexivity.
  - repeat constructor; eexists; reflexivity.
Defined.

Example groupBy_partial_records :
  run_groupBy partial_records (Name "numSyllables")
  = Some [("1", [0]); ("undefined", [1])].
Proof. reflexivity. Qed.

(** ** C2 *)

Lemma StronglySorted_filter {A} (R : relation A) (P : A → Prop)
    `{∀ x, Decision (P x)} (l : list A) :
  StronglySorted R l → StronglySorted R (filter P l).
Proof.
  induction 1 as [|x l Hl IH Hx]; [constructor|].
  destruct (decide (P x)).
  - rewrite filter_cons_True by done. constructor; [done|].
    apply Forall_forall. intros y [_ Hy]%list_elem_of_filter.
    rewrite Forall_forall in Hx. auto.
  - by rewrite filter_cons_False.
Qed.

Lemma own_keys_set_prop_other o s v :
  array_index s = None →
  own_keys (set_prop o s v) = own_keys o
  ∨ own_keys (set_prop o s v) = own_keys o ++ [s].
Proof.
  intros Hs. unfold set_prop. destruct (has_prop o s).
  - left. apply own_keys_update.
  - rewrite Hs. right. unfold own_keys. by rewrite fmap_app.
Qed.

Lemma emit_props_sorted_nil m keys :
  PUndefined ∉ keys →
  StronglySorted sorts_before keys →
  StronglySorted key_lt (own_keys (emit_props m [] keys)).
Proof.
  intros Hu Hkeys. apply emit_props_sorted; [done|done|constructor|].
  intros s k Hs. by apply elem_of_nil in Hs.
Qed.

(** Syllable counts 10 and 2. *)
Definition syllable_records : list record :=
  [ {[ "word" := PStr "institutionalization"; "numSyllables" := PNum 10 ]};
    {[ "word" := PStr "nation"; "numSyllables" := PNum 2 ]} ].

Definition syllable_heap : heap := (alloc_records [] syllable_records).2.

(** C2, as stated, fails: for the numeric keys 10 and 2 the returned object
    enumerates ["2"] before ["10"], and ["2"] is not below ["10"] in string
    order. *)
Lemma groupBy_key_order_counterexample :
  ∃ result h' groups,
    groupBy syllable_heap 2 (Name "numSyllables") = Some (result, h')
    ∧ read_object h' result = Some groups
    ∧ own_keys groups = ["2"; "10"]
    ∧ ¬ StronglySorted String.le (own_keys groups).
Proof.
  eexists _, _, _. split; [reflexivity|]. split; [reflexivity|].
  split; [reflexivity|].
  intros Hs. apply StronglySorted_cons in Hs as [Hall _].
  apply Forall_cons in Hall as [Hle _]. exact Hle.
Qed.

(** C2, amended.  The returned object enumerates its keys with the array
    indices first, in ascending numeric order, and the other keys after
    them in ascending string order; only the key ["undefined"] can be out
    of place, and only when some record has the key [undefined]. *)
Theorem groupBy_key_order h objects items property :
  read_array h objects = Some items →
  all_records h items →
  ∃ result h' groups,
    groupBy h objects property = Some (result, h')
    ∧ read_object h' result = Some groups
    ∧ StronglySorted key_lt (filter (λ s, s ≠ "undefined") (own_keys groups))
    ∧ ((∀ o, o ∈ items → key_of (as_function property) h o ≠ PUndefined) →
       StronglySorted key_lt (own_keys groups)).
Proof.
  intros Harr Hrecs.
  destruct (groupBy_final h objects items property Harr Hrecs)
    as (result & h' & m & Hcall & _ & _ & Hobj & _ & Hnd & Hdom & _).
  eexists result, h', _. split; [done|]. split; [done|].
  pose proof (Array_sort_sorted (Map_keys m)) as Hsorted.
  destruct (decide (PUndefined ∈ Map_keys m)) as [Hin|Hnin].
  - destruct (Array_sort_undefined_last _ Hin Hnd) as (front & Hfront & Hu).
    rewrite Hfront in *. rewrite filter_own_name_undefined_last. split.
    + rewrite emit_props_snoc.
      assert (StronglySorted key_lt
                (own_keys (emit_props m [] (filter own_name front)))) as Hs.
      { apply emit_props_sorted_nil; [by intros [_ ?]%list_elem_of_filter|].
        apply StronglySorted_filter. by apply StronglySorted_app_1_l in Hsorted. }
      destruct (own_keys_set_prop_other (emit_props m [] (filter own_name front))
                  (ToString PUndefined)
                  (default 0 (Map_get m PUndefined)) eq_refl) as [-> | ->].
      * by apply StronglySorted_filter.
      * rewrite filter_app, filter_cons_False, filter_nil, app_nil_r by (by intros ?).
        by apply StronglySorted_filter.
    + intros Hno. apply Hdom in Hin.
      apply list_elem_of_fmap in Hin as (o & Hk & Ho). by destruct (Hno o Ho).
  - assert (StronglySorted key_lt
              (own_keys (emit_props m [] (filter own_name (Array_sort (Map_keys m))))))
      as Hs.
    { apply emit_props_sorted_nil; [|by apply StronglySorted_filter].
      intros [_ Hx]%list_elem_of_filter. by rewrite Array_sort_perm in Hx. }
    split; [by apply StronglySorted_filter|done].
Qed.

Lemma groupBy_key_order_witness :
  ∃ result h' groups,
    groupBy syllable_heap 2 (Name "numSyllables") = Some (result, h')
    ∧ read_object h' result = Some groups
    ∧ StronglySorted key_lt (filter (λ s, s ≠ "undefined") (own_keys groups))
    ∧ ((∀ o, o ∈ [0; 1] →
          key_of (as_function (Name "numSyllables")) syllable_heap o ≠ PUndefined) →
       StronglySorted key_lt (own_keys groups)).
Proof.
  apply (groupBy_key_order syllable_heap 2 [0; 1] (Name "numSyllables")).
  - reflexivity.
  - repeat constructor; eexists; reflexivity.
Defined.

(** ** C1 *)

(** The number 1 and the string ["1"] as keys. *)
Definition mixed_records : list record :=
  [ {[ "t" := PNum 1 ]}; {[ "t" := PStr "1" ]} ].

Definition mixed_heap : heap := (alloc_records [] mixed_records).2.

(** C1 at [groupBy([{t: 1}, {t: '1'}], 't')].  The Map holds two groups,
    under [1] and under ["1"]; both are written to the property ["1"] of the
    returned object and the second write replaces the first.  The record at
    location 0 is in no group of the result. *)
Theorem groupBy_drops_a_record :
  ∃ result h' groups,
    groupBy mixed_heap 2 (Name "t") = Some (result, h')
    ∧ read_array mixed_heap 2 = Some [0; 1]
    ∧ groups_of h' result = Some groups
    ∧ groups = [("1", [1])]
    ∧ ¬ (concat groups.*2 ≡ₚ [0; 1]).
Proof.
  eexists _, _, _. split; [reflexivity|]. split; [reflexivity|].
  split; [reflexivity|]. split; [reflexivity|].
  simpl. intros Hp%Permutation_length. discriminate.
Qed.

(** ** C8 *)

(** C8.  When [fetch] rejects, and when the body of the response does not
    parse, the reaction of [datamuseRequest] appends the error to the
    console and does nothing else: the callback is not run, the page and
    the store are the ones before. *)
Theorem datamuseRequest_failure_only_logs url (callback : loc → M unit) w err :
  on_settled (datamuseRequest url callback) (Rejected err) w
  = Some (tt, World (store w) (dom w) (console w ++ [err]))
  ∧ on_settled (datamuseRequest url callback) (Fulfilled (Response (Rejected err))) w
    = Some (tt, World (store w) (dom w) (console w ++ [err])).
Proof. split; reflexivity. Qed.

(** ** C9 *)

Lemma read_array_alloc (h : heap) xs : read_array (h ++ [CArray xs]) (length h) = Some xs.
Proof. unfold read_array. by rewrite lookup_app_r, Nat.sub_diag. Qed.

(** Unfold the statements of the script down to the store operations. *)
Ltac run_M :=
  cbv [handle_then_settle rhymeHandler synonymHandler datamuseRequest
       rhymeCallback synonymCallback getDatamuseRhymeUrl getDatamuseSimilarToUrl
       promise_then1 promise_then json on_settled body
       mbind M_bind mret M_ret get_dom get_store put_store modify_dom lift_option
       alloc_records alloc store dom console fst snd];
  cbn [fmap list_fmap length seq].

(** A page whose output area is an [output] element. *)
Definition cat_world : world :=
  World [] (Page "" OutputElement None [] "cat" "" [] [] [] None) [].

(** C9.  The element behind [#word_output] is a parameter of the page; the
    script assigns its [value] and appends nodes to it, which fits an
    [output] element.  On such a page, when the response is the empty
    sequence, a run of either handler followed by the settling of its
    request leaves the output area with one child, the text
    ["(no results)"], and no list item. *)
Theorem handlers_no_results w :
  wordOutput_element (dom w) = OutputElement →
  (∃ w', handle_then_settle rhymeHandler (Fulfilled (Response (Fulfilled []))) w
         = Some (tt, w')
         ∧ wordOutput_children (dom w') = [TextNode "(no results)"])
  ∧ (∃ w', handle_then_settle synonymHandler (Fulfilled (Response (Fulfilled []))) w
           = Some (tt, w')
           ∧ wordOutput_children (dom w') = [TextNode "(no results)"]).
Proof.
  destruct w as [h p c]. destruct p. simpl. intros ->. split.
  - eexists. split.
    + run_M. rewrite app_nil_r.
      rewrite (groupBy_no_items _ _ _ (read_array_alloc h [])).
      run_M. rewrite read_object_alloc.
      cbv [read_proto]. rewrite lookup_app_r, Nat.sub_diag by done.
      reflexivity.
    + reflexivity.
  - eexists. split.
    + run_M. rewrite app_nil_r, read_array_alloc. reflexivity.
    + reflexivity.
Qed.

Lemma handlers_no_results_witness :
  (∃ w', handle_then_settle rhymeHandler (Fulfilled (Response (Fulfilled [])))
                            cat_world
         = Some (tt, w')
         ∧ wordOutput_children (dom w') = [TextNode "(no results)"])
  ∧ (∃ w', handle_then_settle synonymHandler (Fulfilled (Response (Fulfilled [])))
                              cat_world
           = Some (tt, w')
           ∧ wordOutput_children (dom w') = [TextNode "(no results)"]).
Proof. apply (handlers_no_results cat_world). reflexivity. Defined.

(** On an element without a [value] of its own the assignment shows
    nothing: the output area stays empty. *)
Example no_results_on_a_plain_element :
  ∃ w', handle_then_settle synonymHandler (Fulfilled (Response (Fulfilled [])))
          (World [] (Page "" PlainElement None [] "cat" "" [] [] [] None) [])
        = Some (tt, w')
        ∧ wordOutput_children (dom w') = []
        ∧ wordOutput_own_value (dom w') = Some "(no results)".
Proof. by eexists. Qed.

(** ** C10 *)

(** C10.  A call of [addToSavedWords] puts its word at the end of
    [wordList], whether or not the word is already there: the entries
    before the call stay in place and the length grows by one.  After a
    series of calls the list is the old one followed by the words of the
    calls, in order. *)
Theorem addToSavedWords_appends word words w :
  (∃ w', addToSavedWords word w = Some (tt, w')
         ∧ wordList (dom w') = wordList (dom w) ++ [word]
         ∧ length (wordList (dom w')) = S (length (wordList (dom w))))
  ∧ (∃ w', for_each words addToSavedWords w = Some (tt, w')
           ∧ wordList (dom w') = wordList (dom w) ++ words).
Proof.
  split.
  - eexists. split; [reflexivity|]. simpl. split; [done|].
    rewrite length_app. simpl. lia.
  - revert w. induction words as [|x words IH]; intros w.
    + exists w. split; [done|]. by rewrite app_nil_r.
    + destruct (IH (World (store w)
                      (set_savedWords_children
                         [TextNode (String.concat "," (wordList (dom w) ++ [x]))]
                         (set_wordList (wordList (dom w) ++ [x])
                            (set_savedWords_children [] (dom w))))
                      (console w))) as (w' & Hrun & Hlist).
      exists w'. split; [exact Hrun|]. rewrite Hlist. simpl.
      by rewrite <- app_assoc.
Qed.


(** * Further properties of groupBy *)

(** The properties of the returned object, entry by entry: each is the
    bucket array of one key [k] of the Map, under the string of [k]. *)
Lemma groupBy_props h objects items property :
  read_array h objects = Some items →
  all_records h items →
  ∃ result h' m props ks,
    groupBy h objects property = Some (result, h')
    ∧ read_object h' result = Some props
    ∧ Forall2 (λ p k, p.1 = ToString k ∧ (k, p.2) ∈ m) props ks
    ∧ NoDup (ToString <$> ks)
    ∧ NoDup m.*2
    ∧ length h ≤ result
    ∧ (∀ k l, (k, l) ∈ m →
         length h ≤ l ∧ l ≠ result
         ∧ read_array h' l = Some (bucket_of (as_function property) h k items))
    ∧ (∀ l c, h !! l = Some c → h' !! l = Some c)
    ∧ (∀ k, k ∈ ks → k ∈ key_of (as_function property) h <$> items)
    ∧ (∀ o, o ∈ items → own_name (key_of (as_function property) h o) →
         ToString (key_of (as_function property) h o) ∈ ToString <$> ks)
    ∧ ((∀ o, o ∈ items → own_name (key_of (as_function property) h o)) →
       read_proto h' result = Some None).
Proof.
  intros Harr Hrecs.
  destruct (groupBy_returns h objects items property Harr Hrecs)
    as (h1 & m & [Hfr Hk Hl Hdom Hb] & Hcall).
  assert (length h ≤ length h1) as Hlen.
  { destruct (decide (length h ≤ length h1)); [done|].
    destruct (lookup_lt_is_Some_2 h (length h1)) as [c Hc]; [lia|].
    apply Hfr, lookup_lt_Some in Hc. lia. }
  set (o := emit_props m [] (filter own_name (Array_sort (Map_keys m)))) in *.
  assert (Forall (λ p, ∃ k, p.1 = ToString k ∧ (k, p.2) ∈ m) o) as Hprops.
  { apply Forall_forall.
    intros p [Hp|(k & Hin & ->)]%elem_of_emit_props; [by apply elem_of_nil in Hp|].
    apply list_elem_of_filter in Hin as [_ Hin].
    rewrite Array_sort_perm in Hin.
    destruct (Map_get_is_Some m k Hin) as [l Hget]. rewrite Hget. simpl.
    exists k. split; [done|]. by apply Map_get_Some. }
  assert (∃ ks, Forall2 (λ p k, p.1 = ToString k ∧ (k, p.2) ∈ m) o ks)
    as [ks Hks].
  { clear -Hprops. induction Hprops as [|p o (k & ? & ?) _ [ks IH]].
    - exists []. constructor.
    - exists (k :: ks). by constructor. }
  assert (own_keys o = ToString <$> ks) as Hnames.
  { unfold own_keys. clear -Hks. induction Hks as [|p k o ks [? _] _ IH]; [done|].
    rewrite !fmap_cons. by f_equal. }
  eexists (length h1), _, m, o, ks. split; [exact Hcall|].
  split; [|split; [done|split; [|split; [done|split; [done|]]]]].
  - apply read_object_lookup. eexists.
    apply list_lookup_insert_eq. rewrite length_app. simpl. lia.
  - rewrite <- Hnames. apply NoDup_own_keys_emit_props, NoDup_nil_2.
  - split; [|split; [|split; [|split]]].
    + intros k l Hin. destruct (Hb _ _ Hin) as [Hge Hc].
      pose proof (lookup_lt_Some _ _ _ Hc). split; [done|]. split; [lia|].
      apply read_array_lookup. rewrite list_lookup_insert_ne by lia.
      by rewrite lookup_app_l by lia.
    + intros l c Hl0. pose proof (lookup_lt_Some _ _ _ Hl0).
      rewrite list_lookup_insert_ne by lia. rewrite lookup_app_l by lia. auto.
    + intros k Hkin. apply Hdom.
      apply list_elem_of_lookup in Hkin as [i Hi].
      destruct (Forall2_lookup_r _ _ _ _ _ Hks Hi) as (p & _ & _ & Hin).
      apply list_elem_of_fmap. by exists (k, p.2).
    + intros o' Ho' Hown. rewrite <- Hnames. apply own_keys_emit_props_elem.
      apply list_elem_of_filter. split; [done|].
      rewrite Array_sort_perm. apply Hdom, list_elem_of_fmap. by exists o'.
    + intros Hown. eapply read_proto_lookup.
      rewrite emit_proto_own.
      * apply list_lookup_insert_eq. rewrite length_app. simpl. lia.
      * apply Forall_forall. intros k Hkin. rewrite Array_sort_perm in Hkin.
        apply Hdom, list_elem_of_fmap in Hkin as (o' & -> & Ho'). by apply Hown.
Qed.

(** The arrays of the returned object are cells made by the call, one per
    group: none is a cell of the store the call was given, none is the
    returned object, and no two groups share an array. *)
Theorem groupBy_fresh_arrays h objects items property :
  read_array h objects = Some items →
  all_records h items →
  ∃ result h' props,
    groupBy h objects property = Some (result, h')
    ∧ read_object h' result = Some props
    ∧ NoDup props.*2
    ∧ ∀ s l, (s, l) ∈ props →
        h !! l = None ∧ l ≠ result ∧ l ≠ objects ∧ is_Some (read_array h' l).
Proof.
  intros Harr Hrecs.
  destruct (groupBy_props h objects items property Harr Hrecs)
    as (result & h' & m & props & ks & Hcall & Hobj & Hks & Hnd & Hlocs & _ & Hb & _).
  exists result, h', props. split; [done|]. split; [done|]. split.
  - apply NoDup_fmap_1 in Hnd. clear Hobj.
    induction Hks as [|[s l] k props ks [_ Hin] Hks IH]; [constructor|].
    apply NoDup_cons in Hnd as [Hk Hnd]. rewrite fmap_cons. apply NoDup_cons.
    split; [|by apply IH].
    intros [[s' l'] [Heq Hin']]%list_elem_of_fmap. simpl in *. subst l'.
    apply list_elem_of_lookup in Hin' as [i Hi].
    destruct (Forall2_lookup_l _ _ _ _ _ Hks Hi) as (k' & Hk' & _ & Hin'').
    simpl in Hin''. apply Hk.
    rewrite (entry_unique m k k' l Hlocs Hin Hin'').
    by eapply list_elem_of_lookup_2.
  - intros s l Hin. apply list_elem_of_lookup in Hin as [i Hi].
    destruct (Forall2_lookup_l _ _ _ _ _ Hks Hi) as (k & _ & _ & Hkl).
    destruct (Hb _ _ Hkl) as (Hge & Hne & Hread). simpl in *.
    split; [by apply lookup_ge_None|]. split; [done|]. split; [|eauto].
    apply read_array_lookup, lookup_lt_Some in Harr. lia.
Qed.

Lemma groupBy_fresh_arrays_witness :
  ∃ result h' props,
    groupBy team_heap team_objects (Name "team") = Some (result, h')
    ∧ read_object h' result = Some props
    ∧ NoDup props.*2
    ∧ ∀ s l, (s, l) ∈ props →
        team_heap !! l = None ∧ l ≠ result ∧ l ≠ team_objects
        ∧ is_Some (read_array h' l).
Proof.
  apply (groupBy_fresh_arrays team_heap team_objects [0; 1; 2] (Name "team")).
  - reflexivity.
  - repeat constructor; eexists; reflexivity.
Defined.

(** Decide a property of the three records of the example. *)
Ltac each_of_three Ho tac :=
  repeat (apply elem_of_cons in Ho as [->|Ho]; [tac|]);
  by apply elem_of_nil in Ho.

(** The names of the groups are the strings of the keys of the input
    records, the string [__proto__] left out, each name once, and no group
    is empty.  The keys are plain values, so that their strings are the
    ones of the language. *)
Theorem groupBy_group_names h objects items property :
  read_array h objects = Some items →
  all_records h items →
  (∀ o, o ∈ items → plain (key_of (as_function property) h o)) →
  ∃ result h' groups,
    groupBy h objects property = Some (result, h')
    ∧ groups_of h' result = Some groups
    ∧ NoDup groups.*1
    ∧ (∀ s, s ∈ groups.*1 ↔
            s ≠ "__proto__"
            ∧ ∃ o, o ∈ items ∧ s = ToString (key_of (as_function property) h o))
    ∧ (∀ s bucket, (s, bucket) ∈ groups → bucket ≠ []).
Proof.
  intros Harr Hrecs _.
  destruct (groupBy_groups h objects items property Harr Hrecs)
    as (result & h' & groups & ks & Hcall & Hgroups & -> & Hnd & Hsound & Hcompl).
  eexists result, h', _. split; [done|]. split; [done|].
  rewrite <- list_fmap_compose. split; [exact Hnd|]. split.
  - intros s. split.
    + intros (k & -> & Hk)%list_elem_of_fmap.
      destruct (Hsound k Hk) as [Hown (o & -> & Ho)%list_elem_of_fmap].
      split; [done|]. by exists o.
    + intros (Hown & o & Ho & ->).
      destruct (Hcompl (key_of (as_function property) h o)) as (k' & Hk' & <-).
      { apply list_elem_of_fmap. by exists o. }
      { done. }
      apply list_elem_of_fmap. by exists k'.
  - intros s bucket (k & [= -> ->] & Hk)%list_elem_of_fmap.
    destruct (Hsound k Hk) as [_ (o & -> & Ho)%list_elem_of_fmap].
    intros Hnil. apply (not_elem_of_nil o). rewrite <- Hnil.
    unfold bucket_of. by apply list_elem_of_filter.
Qed.

Lemma groupBy_group_names_witness :
  ∃ result h' groups,
    groupBy team_heap team_objects (Name "team") = Some (result, h')
    ∧ groups_of h' result = Some groups
    ∧ NoDup groups.*1
    ∧ (∀ s, s ∈ groups.*1 ↔
            s ≠ "__proto__"
            ∧ ∃ o, o ∈ [0; 1; 2]
                   ∧ s = ToString (key_of (as_function (Name "team")) team_heap o))
    ∧ (∀ s bucket, (s, bucket) ∈ groups → bucket ≠ []).
Proof.
  apply (groupBy_group_names team_heap team_objects [0; 1; 2] (Name "team")).
  - reflexivity.
  - repeat constructor; eexists; reflexivity.
  - intros o Ho. each_of_three Ho ltac:(exact I).
Defined.

(** The group of a record whose key shares its string with no other key of
    the input, the string not being [__proto__]: it is in the result under
    that string and holds the records of the input with that key, all of
    them, in input order.  The keys are plain values, so that their strings
    are the ones of the language. *)
Theorem groupBy_group_of h objects items property o :
  read_array h objects = Some items →
  all_records h items →
  (∀ o', o' ∈ items → plain (key_of (as_function property) h o')) →
  o ∈ items →
  own_name (key_of (as_function property) h o) →
  (∀ o', o' ∈ items →
     ToString (key_of (as_function property) h o')
     = ToString (key_of (as_function property) h o) →
     key_of (as_function property) h o' = key_of (as_function property) h o) →
  ∃ result h' groups,
    groupBy h objects property = Some (result, h')
    ∧ groups_of h' result = Some groups
    ∧ (ToString (key_of (as_function property) h o),
       filter (λ o', key_of (as_function property) h o'
                     = key_of (as_function property) h o) items) ∈ groups.
Proof.
  intros Harr Hrecs _ Ho Hown Hinj.
  destruct (groupBy_groups h objects items property Harr Hrecs)
    as (result & h' & groups & ks & Hcall & Hgroups & -> & Hnd & Hsound & Hcompl).
  eexists result, h', _. split; [done|]. split; [done|].
  destruct (Hcompl (key_of (as_function property) h o)) as (k' & Hk' & Heq).
  { apply list_elem_of_fmap. by exists o. }
  { done. }
  destruct (proj1 (list_elem_of_fmap _ _ _) (proj2 (Hsound k' Hk')))
    as (o' & -> & Ho').
  apply list_elem_of_fmap. exists (key_of (as_function property) h o).
  split; [done|]. by rewrite <- (Hinj o' Ho' Heq).
Qed.

Lemma groupBy_group_of_witness :
  ∃ result h' groups,
    groupBy team_heap team_objects (Name "team") = Some (result, h')
    ∧ groups_of h' result = Some groups
    ∧ (ToString (key_of (as_function (Name "team")) team_heap 0),
       filter (λ o', key_of (as_function (Name "team")) team_heap o'
                     = key_of (as_function (Name "team")) team_heap 0) [0; 1; 2])
      ∈ groups.
Proof.
  apply (groupBy_group_of team_heap team_objects [0; 1; 2] (Name "team") 0).
  - reflexivity.
  - repeat constructor; eexists; reflexivity.
  - intros o' Ho'. each_of_three Ho' ltac:(exact I).
  - left.
  - vm_compute. congruence.
  - intros o' Ho'. each_of_three Ho' ltac:(vm_compute; congruence).
Defined.

Lemma groupBy_partition_witness :
  ∃ result h' groups,
    groupBy team_heap team_objects (Name "team") = Some (result, h')
    ∧ groups_of h' result = Some groups
    ∧ NoDup groups.*1
    ∧ concat groups.*2 ⊆+ [0; 1; 2]
    ∧ ((∀ o, o ∈ [0; 1; 2] →
          plain (key_of (as_function (Name "team")) team_heap o)
          ∧ own_name (key_of (as_function (Name "team")) team_heap o)) →
       (∀ o1 o2, o1 ∈ [0; 1; 2] → o2 ∈ [0; 1; 2] →
          ToString (key_of (as_function (Name "team")) team_heap o1)
          = ToString (key_of (as_function (Name "team")) team_heap o2) →
          key_of (as_function (Name "team")) team_heap o1
          = key_of (as_function (Name "team")) team_heap o2) →
       concat groups.*2 ≡ₚ [0; 1; 2]).
Proof.
  apply (groupBy_partition team_heap team_objects [0; 1; 2] (Name "team")).
  - reflexivity.
  - repeat constructor; eexists; reflexivity.
Defined.

(** A key [__proto__] makes its bucket the prototype of the returned
    object, which then has no property for it: the record is in no group a
    caller enumerates. *)
Example groupBy_proto_key :
  run_groupBy [ {[ "t" := PStr "__proto__" ]}; {[ "t" := PStr "a" ]} ] (Name "t")
  = Some [("a", [1])].
Proof. reflexivity. Qed.

(** * Further properties of the page controller *)

(** The list item the handlers make for a record. *)
Definition word_item (obj : record) : node :=
  Li [Span (textContent_of (get_field obj "word")); save_button].

Definition item_node (h : heap) (o : loc) : node :=
  word_item (default ∅ (read_record h o)).

(** What the rhyme handler shows for one group: a header naming the group,
    then the items of its records. *)
Definition render_group (h : heap) (g : string * list loc) : list node :=
  H3 ("Syllables: " +:+ g.1) :: (item_node h <$> g.2).

Definition with_children (ns : list node) (w : world) : world :=
  World (store w) (set_wordOutput_children ns (dom w)) (console w).

Lemma with_children_same w : with_children (wordOutput_children (dom w)) w = w.
Proof. by destruct w as [h [] c]. Qed.

Lemma with_children_twice ns ns' w :
  with_children ns (with_children ns' w) = with_children ns w.
Proof. by destruct w as [h [] c]. Qed.


(** ** The response in the store *)

Lemma alloc_records_array h rs :
  read_array (alloc_records h rs).2 (alloc_records h rs).1
  = Some (seq (length h) (length rs)).
Proof.
  unfold alloc_records, alloc. simpl. unfold read_array.
  by rewrite lookup_app_r, Nat.sub_diag.
Qed.

Lemma alloc_records_record h rs i r :
  rs !! i = Some r →
  read_record (alloc_records h rs).2 (length h + i) = Some r.
Proof.
  intros Hi. unfold alloc_records, alloc, read_record. simpl.
  pose proof (lookup_lt_Some _ _ _ Hi).
  rewrite lookup_app_l by (rewrite length_app, length_fmap; lia).
  rewrite lookup_app_r by lia.
  replace (length h + i - length h) with i by lia.
  by rewrite list_lookup_fmap, Hi.
Qed.

Lemma alloc_records_frame h rs l c :
  h !! l = Some c → (alloc_records h rs).2 !! l = Some c.
Proof.
  intros Hl. unfold alloc_records, alloc. simpl.
  pose proof (lookup_lt_Some _ _ _ Hl).
  rewrite lookup_app_l by (rewrite length_app; lia). by rewrite lookup_app_l by lia.
Qed.

Lemma alloc_records_all_records h rs :
  all_records (alloc_records h rs).2 (seq (length h) (length rs)).
Proof.
  apply Forall_forall. intros o [Hge Hlt]%elem_of_seq.
  destruct (lookup_lt_is_Some_2 rs (o - length h)) as [r Hr]; [lia|].
  exists r. replace o with (length h + (o - length h)) by lia.
  by apply alloc_records_record.
Qed.

Lemma item_node_alloc_records h rs :
  item_node (alloc_records h rs).2 <$> seq (length h) (length rs) = word_item <$> rs.
Proof.
  apply list_eq. intros i. rewrite !list_lookup_fmap.
  destruct (rs !! i) as [r|] eqn:Hr.
  - pose proof (lookup_lt_Some _ _ _ Hr).
    pose proof (alloc_records_record h rs i r Hr) as Hrec.
    set (h' := (alloc_records h rs).2) in *.
    rewrite lookup_seq_lt by done. simpl. unfold item_node. by rewrite Hrec.
  - apply lookup_ge_None in Hr. by rewrite lookup_seq_ge.
Qed.

(** ** The loops of the callbacks *)

Lemma append_item_run o r w :
  read_record (store w) o = Some r →
  append_item o w
  = Some (tt, with_children (wordOutput_children (dom w) ++ [word_item r]) w).
Proof.
  intros Hr. unfold append_item.
  cbv [mbind M_bind get_store lift_option wordOutput_append modify_dom].
  by rewrite Hr.
Qed.

Lemma for_each_append_item items w :
  all_records (store w) items →
  for_each items append_item w
  = Some (tt, with_children
                (wordOutput_children (dom w) ++ (item_node (store w) <$> items)) w).
Proof.
  revert w. induction items as [|o items IH]; intros w Hrecs.
  - simpl. rewrite app_nil_r, with_children_same. done.
  - apply Forall_cons in Hrecs as [[r Hr] Hrecs].
    cbn [for_each]. cbv [mbind M_bind]. rewrite (append_item_run o r w Hr).
    rewrite IH by done. rewrite with_children_twice. simpl.
    unfold item_node at 2. rewrite Hr. simpl. by rewrite <- app_assoc.
Qed.

(** ** A request that succeeds *)

(** The store once the body of the response is parsed. *)
Definition parsed_world (rs : list record) (w : world) : world :=
  World (alloc_records (store w) rs).2 (dom w) (console w).

Lemma datamuseRequest_success_run url (callback : loc → M unit) rs w :
  on_settled (datamuseRequest url callback) (Fulfilled (Response (Fulfilled rs))) w
  = match callback (alloc_records (store w) rs).1 (parsed_world rs w) with
    | Some (_, w') => Some (tt, w')
    | None => None
    end.
Proof.
  cbv [datamuseRequest on_settled promise_then1 promise_then json body
       mbind M_bind mret M_ret get_store put_store parsed_world].
  unfold alloc_records, alloc. simpl.
  by destruct (callback _ _) as [[[] w']|].
Qed.

(** When the response parses, the callback is run once, on an array that
    holds the records of the response in order; the records are new cells,
    every cell of the store before is kept, and nothing is logged unless
    the callback logs it. *)
Theorem datamuseRequest_success url (callback : loc → M unit) rs w w' :
  callback (alloc_records (store w) rs).1 (parsed_world rs w) = Some (tt, w') →
  on_settled (datamuseRequest url callback) (Fulfilled (Response (Fulfilled rs))) w
  = Some (tt, w')
  ∧ (∃ items,
       read_array (store (parsed_world rs w)) (alloc_records (store w) rs).1
       = Some items
       ∧ Forall2 (λ o r, read_record (store (parsed_world rs w)) o = Some r) items rs
       ∧ Forall (λ o, store w !! o = None) items)
  ∧ (∀ l c, store w !! l = Some c → store (parsed_world rs w) !! l = Some c)
  ∧ console (parsed_world rs w) = console w
  ∧ dom (parsed_world rs w) = dom w.
Proof.
  intros Hcb. split; [|split; [|split; [|done]]].
  - by rewrite datamuseRequest_success_run, Hcb.
  - exists (seq (length (store w)) (length rs)). split; [apply alloc_records_array|].
    split.
    + apply Forall2_same_length_lookup_2; [by rewrite length_seq|].
      intros i o r [-> Hlt]%lookup_seq Hr. by apply alloc_records_record.
    + apply Forall_forall. intros o [Hge _]%elem_of_seq. by apply lookup_ge_None.
  - intros l c. apply alloc_records_frame.
Qed.

Definition cat_synonyms : list record :=
  [ {[ "word" := PStr "feline"; "score" := PNum 40 ]};
    {[ "word" := PStr "kitty"; "score" := PNum 30 ]} ].

Lemma datamuseRequest_success_witness :
  on_settled (datamuseRequest "u" synonymCallback)
             (Fulfilled (Response (Fulfilled cat_synonyms))) cat_world
  = Some (tt, with_children (word_item <$> cat_synonyms)
                (parsed_world cat_synonyms cat_world))
  ∧ (∃ items,
       read_array (store (parsed_world cat_synonyms cat_world))
                  (alloc_records (store cat_world) cat_synonyms).1
       = Some items
       ∧ Forall2 (λ o r, read_record (store (parsed_world cat_synonyms cat_world)) o
                         = Some r) items cat_synonyms
       ∧ Forall (λ o, store cat_world !! o = None) items)
  ∧ (∀ l c, store cat_world !! l = Some c →
            store (parsed_world cat_synonyms cat_world) !! l = Some c)
  ∧ console (parsed_world cat_synonyms cat_world) = console cat_world
  ∧ dom (parsed_world cat_synonyms cat_world) = dom cat_world.
Proof.
  apply (datamuseRequest_success "u" synonymCallback cat_synonyms cat_world).
  reflexivity.
Defined.

(** ** What the handlers show *)

Lemma synonymCallback_run data items w :
  read_array (store w) data = Some items →
  all_records (store w) items →
  items ≠ [] →
  synonymCallback data w
  = Some (tt, with_children
                (wordOutput_children (dom w) ++ (item_node (store w) <$> items)) w).
Proof.
  intros Harr Hrecs Hne. unfold synonymCallback.
  cbv [mbind M_bind get_store lift_option]. rewrite Harr.
  destruct items as [|o items]; [done|]. cbn [length Nat.eqb].
  by apply for_each_append_item.
Qed.

(** The page right after a handler has run, before its request settles. *)
Definition searching (description : string) (w : world) : world :=
  World (store w)
        (set_wordOutput_children []
           (set_wordInput_innerHTML ""
              (set_outputDescription_innerHTML
                 (description +:+ wordInput_value (dom w)) (dom w))))
        (console w).

Lemma synonymHandler_run w :
  ∃ url, synonymHandler w
         = Some (datamuseRequest url synonymCallback,
                 searching "Words with a similar meaning to " w).
Proof. destruct w as [h p c]. eexists. cbv [synonymHandler mbind M_bind get_dom]. reflexivity. Qed.

Lemma rhymeHandler_run w :
  ∃ url, rhymeHandler w
         = Some (datamuseRequest url rhymeCallback,
                 searching "Words that rhyme with " w).
Proof. destruct w as [h p c]. eexists. cbv [rhymeHandler mbind M_bind get_dom]. reflexivity. Qed.

(** A synonym search on a response that is not empty, run to its end. *)
Lemma synonymHandler_shows w rs :
  rs ≠ [] →
  handle_then_settle synonymHandler (Fulfilled (Response (Fulfilled rs))) w
  = Some (tt, with_children (word_item <$> rs)
                (parsed_world rs (searching "Words with a similar meaning to " w))).
Proof.
  intros Hne. destruct (synonymHandler_run w) as [url Hrun].
  unfold handle_then_settle. cbv [mbind M_bind]. rewrite Hrun.
  rewrite datamuseRequest_success_run.
  rewrite (synonymCallback_run _ (seq (length (store w)) (length rs))).
  - cbn [parsed_world searching store dom console wordOutput_children
         set_wordOutput_children app].
    by rewrite (item_node_alloc_records (store w) rs).
  - apply alloc_records_array.
  - apply alloc_records_all_records.
  - destruct rs; [done|]. simpl. done.
Qed.

(** A synonym search with a response that is not empty shows one list item
    per record of the response, in the order of the response, each with the
    word of the record and a save button; it replaces what was shown.  The
    console and the saved words are as before.  The words are plain values,
    so that their strings are the ones of the language. *)
Theorem synonymHandler_renders w rs :
  rs ≠ [] →
  Forall (λ r, plain (get_field r "word")) rs →
  ∃ w',
    handle_then_settle synonymHandler (Fulfilled (Response (Fulfilled rs))) w
    = Some (tt, w')
    ∧ wordOutput_children (dom w') = word_item <$> rs
    ∧ wordList (dom w') = wordList (dom w)
    ∧ savedWords_children (dom w') = savedWords_children (dom w)
    ∧ console w' = console w.
Proof.
  intros Hne _. eexists. split; [by apply synonymHandler_shows|].
  by destruct w as [h [] c].
Qed.

Lemma synonymHandler_renders_witness :
  ∃ w',
    handle_then_settle synonymHandler
      (Fulfilled (Response (Fulfilled cat_synonyms))) cat_world
    = Some (tt, w')
    ∧ wordOutput_children (dom w') = word_item <$> cat_synonyms
    ∧ wordList (dom w') = wordList (dom cat_world)
    ∧ savedWords_children (dom w') = savedWords_children (dom cat_world)
    ∧ console w' = console cat_world.
Proof.
  apply (synonymHandler_renders cat_world cat_synonyms).
  - discriminate.
  - repeat constructor.
Defined.

Lemma get_prop_elem (o : object) s l :
  NoDup (own_keys o) → (s, l) ∈ o → get_prop o s = Some l.
Proof.
  unfold own_keys. induction o as [|[s' l'] o IH]; [by intros _ ?%elem_of_nil|].
  rewrite fmap_cons, NoDup_cons, get_prop_cons. intros [Hs ?] Hin.
  apply elem_of_cons in Hin as [?|Hin]; simplify_eq.
  - by rewrite decide_True.
  - rewrite decide_False; [auto|]. intros ->. apply Hs.
    apply list_elem_of_fmap. by exists (s, l).
Qed.

Lemma append_group_run proto (groups : object) group w l first rest r :
  get_prop groups group = Some l →
  read_array (store w) l = Some (first :: rest) →
  read_record (store w) first = Some r →
  all_records (store w) (first :: rest) →
  append_group proto groups group w
  = Some (tt, with_children
                (wordOutput_children (dom w)
                 ++ H3 ("Syllables: " +:+ ToString (get_field r "numSyllables"))
                    :: (item_node (store w) <$> first :: rest)) w).
Proof.
  intros Hget Harr Hr Hrecs. unfold append_group, get_member.
  cbv [mbind M_bind get_store lift_option wordOutput_append modify_dom].
  rewrite Hget. apply read_array_lookup in Harr. rewrite Harr.
  cbn [lookup list_lookup]. rewrite Hr.
  match goal with
  | |- context [World (store w) (set_wordOutput_children ?ns (dom w)) (console w)] =>
      change (World (store w) (set_wordOutput_children ns (dom w)) (console w))
        with (with_children ns w)
  end.
  rewrite for_each_append_item by (by destruct w as [h [] c]).
  rewrite with_children_twice. f_equal. f_equal.
  destruct w as [h [] c]. cbn. by rewrite <- app_assoc.
Qed.

Lemma for_each_append_group proto (groups : object) (gs : list (string * list loc)) w :
  Forall (λ g, ∃ l first r,
            get_prop groups g.1 = Some l
            ∧ read_array (store w) l = Some g.2
            ∧ g.2 !! 0 = Some first
            ∧ read_record (store w) first = Some r
            ∧ ToString (get_field r "numSyllables") = g.1
            ∧ all_records (store w) g.2) gs →
  for_each gs.*1 (append_group proto groups) w
  = Some (tt, with_children
                (wordOutput_children (dom w) ++ flat_map (render_group (store w)) gs)
                w).
Proof.
  revert w. induction gs as [|[s bucket] gs IH]; intros w Hgs.
  - simpl. by rewrite app_nil_r, with_children_same.
  - apply Forall_cons in Hgs as [(l & first & r & Hget & Harr & Hfirst & Hr & Hs & Hrecs)
                                 Hgs].
    simpl in *. destruct bucket as [|first' rest]; [done|].
    injection Hfirst as ->.
    cbv [mbind M_bind].
    rewrite (append_group_run proto groups s w l first rest r) by done.
    rewrite IH by (by destruct w as [h [] c]).
    rewrite with_children_twice. f_equal. f_equal.
    destruct w as [h [] c]. cbn -[item_node "+:+"].
    rewrite Hs. by rewrite <- app_assoc.
Qed.

(** The callback of the rhyme handler on an array of records that is not
    empty and has no syllable count [__proto__]: it groups by syllable
    count and appends every group of the result, in the order the result
    enumerates them. *)
Lemma rhymeCallback_run data items w :
  read_array (store w) data = Some items →
  all_records (store w) items →
  items ≠ [] →
  (∀ o, o ∈ items → own_name (key_of (as_function (Name "numSyllables")) (store w) o)) →
  ∃ result h' groups,
    groupBy (store w) data (Name "numSyllables") = Some (result, h')
    ∧ groups_of h' result = Some groups
    ∧ rhymeCallback data w
      = Some (tt, with_children
                    (wordOutput_children (dom w) ++ flat_map (render_group h') groups)
                    (World h' (set_groupedResult result (dom w)) (console w))).
Proof.
  intros Harr Hrecs Hne Hown.
  destruct (groupBy_props (store w) data items (Name "numSyllables") Harr Hrecs)
    as (result & h' & m & props & ks & Hcall & Hobj & Hks & Hnd & _ & _ & Hb & Hfr
        & Hsound & Hcompl & Hproto).
  specialize (Hproto Hown).
  cbn [as_function] in Hb, Hsound, Hcompl, Hown.
  set (sel := λ obj : record, get_field obj "numSyllables") in *.
  set (groups := (λ k, (ToString k, bucket_of sel (store w) k items)) <$> ks).
  assert (own_keys props = groups.*1) as Hnames.
  { unfold own_keys, groups. rewrite <- list_fmap_compose. clear -Hks.
    induction Hks as [|p k props ks [? _] _ IH]; [done|].
    rewrite !fmap_cons. by f_equal. }
  assert (∀ o, o ∈ items →
            ∃ r, read_record h' o = Some r
                 ∧ key_of sel (store w) o = get_field r "numSyllables") as Hitem.
  { intros o Ho. unfold all_records in Hrecs. rewrite Forall_forall in Hrecs.
    destruct (Hrecs o Ho) as [r Hr]. exists r. split.
    - apply read_record_lookup, Hfr. by apply read_record_lookup.
    - unfold key_of. by rewrite Hr. }
  exists result, h', groups. split; [done|]. split.
  { unfold groups_of. rewrite Hobj. simpl. apply mapM_Some_2.
    apply Forall2_fmap_r. eapply Forall2_impl; [exact Hks|].
    intros [s l] k [Hs Hin]. simpl in *. destruct (Hb _ _ Hin) as (_ & _ & ->).
    simpl. by subst s. }
  unfold rhymeCallback.
  cbv [mbind M_bind get_store lift_option put_store modify_dom].
  rewrite Hcall. cbn [store dom console]. rewrite Hobj, Hproto.
  assert ((length (own_keys props) =? 0) = false) as ->.
  { destruct items as [|o items']; [done|].
    pose proof (Hcompl o ltac:(left) (Hown o ltac:(left))) as Hin. rewrite Hnames.
    unfold groups. rewrite <- list_fmap_compose.
    destruct ks; [by apply elem_of_nil in Hin|done]. }
  cbn [for_in]. rewrite Hnames.
  match goal with
  | |- for_each _ _ ?w1 = _ =>
      rewrite (for_each_append_group None props groups w1)
  end.
  { reflexivity. }
  apply Forall_forall. intros g (k & -> & Hk)%list_elem_of_fmap. cbn [fst snd store].
  apply list_elem_of_lookup in Hk as [i Hi].
  destruct (Forall2_lookup_r _ _ _ _ _ Hks Hi) as ([s l] & Hp & Hs & Hin).
  simpl in Hs, Hin. subst s. apply list_elem_of_lookup_2 in Hp.
  destruct (Hb _ _ Hin) as (_ & _ & Hread).
  apply list_elem_of_lookup_2, Hsound, list_elem_of_fmap in Hi as (o & Hko & Ho).
  assert (∀ o', o' ∈ bucket_of sel (store w) k items →
                o' ∈ items ∧ key_of sel (store w) o' = k) as Hin_bucket.
  { intros o'. unfold bucket_of. rewrite list_elem_of_filter. intros [? ?]. done. }
  assert (o ∈ bucket_of sel (store w) k items) as Hmem.
  { unfold bucket_of. by apply list_elem_of_filter. }
  destruct (bucket_of sel (store w) k items) as [|first rest];
    [by apply elem_of_nil in Hmem|].
  destruct (Hin_bucket first ltac:(left)) as [Hfirst Hkey].
  destruct (Hitem first Hfirst) as (r & Hr & Hkr).
  exists l, first, r. split.
  { apply get_prop_elem; [|done]. rewrite Hnames. unfold groups.
    by rewrite <- list_fmap_compose. }
  split; [done|]. split; [done|]. split; [done|]. split.
  { by rewrite <- Hkr, Hkey. }
  apply Forall_forall. intros o' Ho'. destruct (Hin_bucket o' Ho') as [Hi' _].
  destruct (Hitem o' Hi') as (r' & Hr' & _). eauto.
Qed.

Lemma own_name_alloc_records h rs :
  Forall (λ r, own_name (get_field r "numSyllables")) rs →
  ∀ o, o ∈ seq (length h) (length rs) →
       own_name (key_of (as_function (Name "numSyllables")) (alloc_records h rs).2 o).
Proof.
  intros Hown o [Hge Hlt]%elem_of_seq.
  destruct (lookup_lt_is_Some_2 rs (o - length h)) as [r Hr]; [lia|].
  rewrite Forall_forall in Hown.
  pose proof (Hown r (list_elem_of_lookup_2 _ _ _ Hr)) as Hkey.
  unfold key_of.
  replace o with (length h + (o - length h)) by lia.
  by rewrite (alloc_records_record h rs _ r Hr).
Qed.

(** A rhyme search on a response that is not empty and has no syllable
    count [__proto__], run to its end. *)
Lemma rhymeHandler_shows w rs :
  rs ≠ [] →
  Forall (λ r, own_name (get_field r "numSyllables")) rs →
  ∃ result h' groups,
    groupBy (alloc_records (store w) rs).2 (alloc_records (store w) rs).1
            (Name "numSyllables")
    = Some (result, h')
    ∧ groups_of h' result = Some groups
    ∧ handle_then_settle rhymeHandler (Fulfilled (Response (Fulfilled rs))) w
      = Some (tt, with_children (flat_map (render_group h') groups)
                    (World h'
                       (set_groupedResult result
                          (dom (searching "Words that rhyme with " w)))
                       (console w))).
Proof.
  intros Hne Hown. destruct (rhymeHandler_run w) as [url Hrun].
  set (w0 := searching "Words that rhyme with " w).
  destruct (rhymeCallback_run (alloc_records (store w0) rs).1
              (seq (length (store w0)) (length rs)) (parsed_world rs w0))
    as (result & h' & groups & Hcall & Hgroups & Hcb).
  { apply alloc_records_array. }
  { apply alloc_records_all_records. }
  { destruct rs; [done|]. simpl. done. }
  { by apply own_name_alloc_records. }
  exists result, h', groups. split; [exact Hcall|]. split; [exact Hgroups|].
  unfold handle_then_settle. cbv [mbind M_bind]. rewrite Hrun. fold w0.
  rewrite datamuseRequest_success_run, Hcb. subst w0.
  by destruct w as [h [] c].
Qed.

(** A rhyme search with a response that is not empty replaces what was
    shown by the groups of [groupBy(result, 'numSyllables')], in the order
    the returned object enumerates them: for each group a header whose
    markup is ["Syllables: "] and the name of the group, then one list item
    per record of the group, in the order of the response.  The console and
    the saved words are as before.  The syllable counts are numbers and,
    like the words, plain values. *)
Theorem rhymeHandler_renders w rs :
  rs ≠ [] →
  Forall (λ r, (∃ n, get_field r "numSyllables" = PNum n ∧ plain (PNum n))
               ∧ plain (get_field r "word")) rs →
  ∃ w' result groups,
    handle_then_settle rhymeHandler (Fulfilled (Response (Fulfilled rs))) w
    = Some (tt, w')
    ∧ groupBy (alloc_records (store w) rs).2 (alloc_records (store w) rs).1
              (Name "numSyllables")
      = Some (result, store w')
    ∧ groups_of (store w') result = Some groups
    ∧ wordOutput_children (dom w') = flat_map (render_group (store w')) groups
    ∧ groupedResult (dom w') = Some result
    ∧ wordList (dom w') = wordList (dom w)
    ∧ savedWords_children (dom w') = savedWords_children (dom w)
    ∧ console w' = console w.
Proof.
  intros Hne Hrs.
  destruct (rhymeHandler_shows w rs Hne)
    as (result & h' & groups & Hcall & Hgroups & Hrun).
  { eapply Forall_impl; [exact Hrs|].
    intros r [(n & -> & _) _]. apply own_name_PNum. }
  eexists _, result, groups. split; [exact Hrun|].
  split; [exact Hcall|]. split; [exact Hgroups|]. by destruct w as [h [] c].
Qed.

Definition cat_rhymes : list record :=
  [ {[ "word" := PStr "hat"; "numSyllables" := PNum 1 ]};
    {[ "word" := PStr "acrobat"; "numSyllables" := PNum 3 ]};
    {[ "word" := PStr "bat"; "numSyllables" := PNum 1 ]} ].

Lemma rhymeHandler_renders_witness :
  ∃ w' result groups,
    handle_then_settle rhymeHandler (Fulfilled (Response (Fulfilled cat_rhymes)))
                       cat_world
    = Some (tt, w')
    ∧ groupBy (alloc_records (store cat_world) cat_rhymes).2
              (alloc_records (store cat_world) cat_rhymes).1 (Name "numSyllables")
      = Some (result, store w')
    ∧ groups_of (store w') result = Some groups
    ∧ wordOutput_children (dom w') = flat_map (render_group (store w')) groups
    ∧ groupedResult (dom w') = Some result
    ∧ wordList (dom w') = wordList (dom cat_world)
    ∧ savedWords_children (dom w') = savedWords_children (dom cat_world)
    ∧ console w' = console cat_world.
Proof.
  apply (rhymeHandler_renders cat_world cat_rhymes).
  - discriminate.
  - repeat constructor; try (eexists; split; [reflexivity|]); simpl; lia.
Defined.

Example rhymeHandler_cat :
  (λ w, wordOutput_children (dom w.2))
    <$> handle_then_settle rhymeHandler (Fulfilled (Response (Fulfilled cat_rhymes)))
                           cat_world
  = Some [ H3 "Syllables: 1";
           Li [Span "hat"; save_button]; Li [Span "bat"; save_button];
           H3 "Syllables: 3";
           Li [Span "acrobat"; save_button] ].
Proof. reflexivity. Qed.

(** ** Numeric syllable counts *)

Lemma eq_reflexive_perm {A} (l k : list A) : l = k → l ≡ₚ k.
Proof. by intros ->. Qed.

Definition is_item (n : node) : Prop :=
  match n with Li _ => True | _ => False end.

#[global] Instance is_item_dec n : Decision (is_item n).
Proof. destruct n; simpl; apply _. Defined.

Lemma filter_is_item_render h groups :
  filter is_item (flat_map (render_group h) groups) = item_node h <$> concat groups.*2.
Proof.
  induction groups as [|[s bucket] groups IH]; [done|].
  cbn [flat_map]. rewrite fmap_cons, concat_cons, fmap_app, filter_app, IH.
  f_equal. unfold render_group. cbn [fst snd].
  rewrite filter_cons_False by (simpl; tauto).
  clear. induction bucket as [|o bucket IH]; [done|].
  rewrite fmap_cons, filter_cons_True by done. by rewrite IH.
Qed.

(** When every record of the response has a number as its syllable count,
    a rhyme search shows every record of the response in exactly one list
    item: the items shown are those of the records, up to the regrouping. *)
Theorem rhymeHandler_renders_every_record w rs :
  rs ≠ [] →
  Forall (λ r, ∃ n, get_field r "numSyllables" = PNum n) rs →
  ∃ w',
    handle_then_settle rhymeHandler (Fulfilled (Response (Fulfilled rs))) w
    = Some (tt, w')
    ∧ filter is_item (wordOutput_children (dom w')) ≡ₚ word_item <$> rs.
Proof.
  intros Hne Hnum.
  assert (Forall (λ r, own_name (get_field r "numSyllables")) rs) as Hown.
  { eapply Forall_impl; [exact Hnum|]. intros r [n ->]. apply own_name_PNum. }
  destruct (rhymeHandler_shows w rs Hne Hown)
    as (result & h' & groups & Hcall & Hgroups & Hrun).
  eexists. split; [exact Hrun|].
  assert (∀ ns w1, wordOutput_children (dom (with_children ns w1)) = ns) as ->
      by (by intros ns [h1 [] c1]).
  rewrite filter_is_item_render.
  set (h1 := (alloc_records (store w) rs).2) in *.
  set (items := seq (length (store w)) (length rs)).
  assert (∀ o, o ∈ items → ∃ r n, read_record h1 o = Some r
                                   ∧ get_field r "numSyllables" = PNum n) as Hkeys.
  { intros o [Hge Hlt]%elem_of_seq.
    destruct (lookup_lt_is_Some_2 rs (o - length (store w))) as [r Hr]; [lia|].
    rewrite Forall_forall in Hnum.
    destruct (Hnum r (list_elem_of_lookup_2 _ _ _ Hr)) as [n Hn].
    exists r, n. split; [|done].
    replace o with (length (store w) + (o - length (store w))) by lia.
    by apply alloc_records_record. }
  destruct (groups_part_of_input h1 (alloc_records (store w) rs).1 items
              (Name "numSyllables"))
    as (result' & h2 & groups' & Hcall' & Hgroups' & _ & _ & Hperm).
  { apply alloc_records_array. }
  { apply alloc_records_all_records. }
  rewrite Hcall in Hcall'. injection Hcall' as <- <-.
  rewrite Hgroups in Hgroups'. injection Hgroups' as <-.
  rewrite Hperm.
  - rewrite <- (item_node_alloc_records (store w) rs). fold h1 items.
    apply eq_reflexive_perm. apply Forall_fmap_ext_1, Forall_forall.
    intros o Ho. unfold item_node.
    destruct (Hkeys o Ho) as (r & _ & Hr & _). rewrite Hr.
    destruct (groupBy_final h1 (alloc_records (store w) rs).1 items
                (Name "numSyllables") (alloc_records_array _ _)
                (alloc_records_all_records _ _))
      as (? & ? & ? & Hcall'' & Hfr & _).
    rewrite Hcall in Hcall''. injection Hcall'' as <- <-.
    by rewrite (proj2 (read_record_lookup _ _ _)
                  (Hfr _ _ (proj1 (read_record_lookup _ _ _) Hr))).
  - intros o Ho. subst h1. by apply own_name_alloc_records.
  - intros o1 o2 Ho1 Ho2. unfold key_of. cbn [as_function].
    destruct (Hkeys o1 Ho1) as (r1 & n1 & -> & Hn1).
    destruct (Hkeys o2 Ho2) as (r2 & n2 & -> & Hn2).
    simpl. rewrite Hn1, Hn2. by intros ->%ToString_PNum_inj.
Qed.

Lemma rhymeHandler_renders_every_record_witness :
  ∃ w',
    handle_then_settle rhymeHandler (Fulfilled (Response (Fulfilled cat_rhymes)))
                       cat_world
    = Some (tt, w')
    ∧ filter is_item (wordOutput_children (dom w')) ≡ₚ word_item <$> cat_rhymes.
Proof.
  apply (rhymeHandler_renders_every_record cat_world cat_rhymes).
  - discriminate.
  - repeat constructor; eexists; reflexivity.
Defined.


(** ** Searches that find nothing or fail *)

(** What a search leaves alone: the saved words and their display, and
    every cell the store had. *)
Definition search_frame (w w' : world) : Prop :=
  wordList (dom w') = wordList (dom w)
  ∧ savedWordsArray (dom w') = savedWordsArray (dom w)
  ∧ savedWords_children (dom w') = savedWords_children (dom w)
  ∧ ∀ l c, store w !! l = Some c → store w' !! l = Some c.

Definition request_failed (fetched : settled response) (err : error) : Prop :=
  fetched = Rejected err ∨ fetched = Fulfilled (Response (Rejected err)).

Lemma handler_failure_run handler description (callback : loc → M unit) fetched err w :
  request_failed fetched err →
  (∃ url, handler w = Some (datamuseRequest url callback, searching description w)) →
  handle_then_settle handler fetched w
  = Some (tt, World (store w) (dom (searching description w)) (console w ++ [err])).
Proof.
  intros Hfailed [url Hrun]. unfold handle_then_settle. cbv [mbind M_bind].
  rewrite Hrun. by destruct Hfailed as [-> | ->].
Qed.

(** A search whose request fails, by the network or by the parse, leaves
    the output area empty, logs the error and changes neither the store nor
    the saved words. *)
Theorem handlers_on_failure fetched err w :
  request_failed fetched err →
  (∃ w', handle_then_settle rhymeHandler fetched w = Some (tt, w')
         ∧ wordOutput_children (dom w') = []
         ∧ console w' = console w ++ [err]
         ∧ store w' = store w
         ∧ search_frame w w')
  ∧ (∃ w', handle_then_settle synonymHandler fetched w = Some (tt, w')
           ∧ wordOutput_children (dom w') = []
           ∧ console w' = console w ++ [err]
           ∧ store w' = store w
           ∧ search_frame w w').
Proof.
  intros Hfailed. split.
  - exists (World (store w) (dom (searching "Words that rhyme with " w))
                  (console w ++ [err])).
    split.
    + apply (handler_failure_run rhymeHandler _ rhymeCallback); [done|].
      apply rhymeHandler_run.
    + destruct w as [h [] c]. repeat split; auto.
  - exists (World (store w) (dom (searching "Words with a similar meaning to " w))
                  (console w ++ [err])).
    split.
    + apply (handler_failure_run synonymHandler _ synonymCallback); [done|].
      apply synonymHandler_run.
    + destruct w as [h [] c]. repeat split; auto.
Qed.

Lemma handlers_on_failure_witness :
  (∃ w', handle_then_settle rhymeHandler (Rejected "TypeError: Failed to fetch")
                            cat_world = Some (tt, w')
         ∧ wordOutput_children (dom w') = []
         ∧ console w' = console cat_world ++ ["TypeError: Failed to fetch"]
         ∧ store w' = store cat_world
         ∧ search_frame cat_world w')
  ∧ (∃ w', handle_then_settle synonymHandler (Rejected "TypeError: Failed to fetch")
                              cat_world = Some (tt, w')
           ∧ wordOutput_children (dom w') = []
           ∧ console w' = console cat_world ++ ["TypeError: Failed to fetch"]
           ∧ store w' = store cat_world
           ∧ search_frame cat_world w').
Proof.
  apply (handlers_on_failure (Rejected "TypeError: Failed to fetch")
           "TypeError: Failed to fetch" cat_world).
  by left.
Defined.






(** ** The syllable count [__proto__] *)

(** When every record has the syllable count [__proto__], the object
    [groupBy] returns has no property of its own, and the rhyme search
    shows the text for an empty response. *)
Example rhymeHandler_only_proto :
  (λ w, wordOutput_children (dom w.2))
    <$> handle_then_settle rhymeHandler
          (Fulfilled (Response (Fulfilled
             [ {[ "word" := PStr "hat"; "numSyllables" := PStr "__proto__" ]} ])))
          cat_world
  = Some [TextNode "(no results)"].
Proof. reflexivity. Qed.

(** Beside another group, the bucket of [__proto__] is the prototype of the
    returned object: the loop reaches its index ["0"], takes the record
    there for a group, and reading [numSyllables] of the record's missing
    field ["0"] throws. *)
Example rhymeHandler_proto_throws :
  handle_then_settle rhymeHandler
    (Fulfilled (Response (Fulfilled
       [ {[ "word" := PStr "hat"; "numSyllables" := PStr "__proto__" ]};
         {[ "word" := PStr "bat"; "numSyllables" := PNum 1 ]} ])))
    cat_world
  = None.
Proof. reflexivity. Qed.

(** A record with a field ["0"] passes for a group: its header names no
    count and each of its fields gives an item without a word. *)
Example rhymeHandler_proto_record_as_group :
  (λ w, wordOutput_children (dom w.2))
    <$> handle_then_settle rhymeHandler
          (Fulfilled (Response (Fulfilled
             [ {[ "0" := PNum 5; "numSyllables" := PStr "__proto__" ]};
               {[ "word" := PStr "bat"; "numSyllables" := PNum 1 ]} ])))
          cat_world
  = Some [ H3 "Syllables: 1"; Li [Span "bat"; save_button];
           H3 "Syllables: undefined";
           Li [Span ""; save_button]; Li [Span ""; save_button] ].
Proof. reflexivity. Qed.

(** ** Saving words *)

(** What saving leaves alone: the output area, the store and the console. *)
Definition save_frame (w w' : world) : Prop :=
  wordOutput_children (dom w') = wordOutput_children (dom w)
  ∧ store w' = store w
  ∧ console w' = console w.

Lemma addToSavedWords_run word w :
  ∃ w', addToSavedWords word w = Some (tt, w')
        ∧ wordList (dom w') = wordList (dom w) ++ [word]
        ∧ savedWords_children (dom w')
          = [TextNode (String.concat "," (wordList (dom w')))]
        ∧ save_frame w w'.
Proof. destruct w as [h [] c]. eexists. split; [reflexivity|]. repeat split. Qed.

(** After a series of calls of [addToSavedWords], one at least, the display
    of the saved words holds a single text: the words saved before and the
    words of the calls, in order, joined by commas.  The output area, the
    store and the console are as before. *)
Theorem saved_words_display words w :
  words ≠ [] →
  ∃ w',
    for_each words addToSavedWords w = Some (tt, w')
    ∧ savedWords_children (dom w')
      = [TextNode (String.concat "," (wordList (dom w) ++ words))]
    ∧ save_frame w w'.
Proof.
  revert w. induction words as [|word words IH]; intros w Hne; [done|].
  cbn [for_each]. cbv [mbind M_bind].
  destruct (addToSavedWords_run word w) as (w1 & -> & Hlist1 & Hshow1 & Hfr1).
  destruct words as [|word' words].
  - exists w1. split; [done|]. by rewrite Hshow1, Hlist1.
  - destruct (IH w1 ltac:(done)) as (w' & Hrun & Hshow & Hfr).
    exists w'. split; [done|]. split.
    + by rewrite Hshow, Hlist1, <- app_assoc.
    + destruct Hfr1 as (? & ? & ?), Hfr as (? & ? & ?). repeat split; congruence.
Qed.

Lemma saved_words_display_witness :
  ∃ w',
    for_each ["hat"; "bat"; "hat"] addToSavedWords cat_world = Some (tt, w')
    ∧ savedWords_children (dom w')
      = [TextNode (String.concat "," (wordList (dom cat_world) ++ ["hat"; "bat"; "hat"]))]
    ∧ save_frame cat_world w'.
Proof. apply (saved_words_display ["hat"; "bat"; "hat"] cat_world). discriminate. Defined.

Example saved_words_of_cat :
  (λ w, (wordList (dom w.2), savedWords_children (dom w.2)))
    <$> for_each ["hat"; "bat"; "hat"] addToSavedWords cat_world
  = Some (["hat"; "bat"; "hat"], [TextNode "hat,bat,hat"]).
Proof. reflexivity. Qed.

(** ** Request URLs *)

Example rhyme_url_of_two_words :
  fst <$> getDatamuseRhymeUrl ""
            (World [] (Page "" OutputElement None [] "ice cream" "" [] [] [] None) [])
  = Some "https://api.datamuse.com/words?rel_rhy=ice+cream".
Proof. reflexivity. Qed.

(** The letter e with an acute accent, code unit 233, is two bytes. *)
Example similar_url_of_an_accent :
  fst <$> getDatamuseSimilarToUrl ""
            (World [] (Page "" OutputElement None []
                         (String "c" (String "a" (String "f" (String (ascii_of_N 233) ""))))
                         "" [] [] [] None) [])
  = Some "https://api.datamuse.com/words?ml=caf%C3%A9".
Proof. reflexivity. Qed.
